(** * knative-kafka: the EventHub namespace cache and the KafkaChannel reconciler

    A shallow embedding of

      - [eventhubcache/cache.go]: the cache of Azure EventHub namespaces
        ([Cache.Update], [AddEventHub], [RemoveEventHub], [GetNamespace],
        [GetNamespaceWithMaxCapacity]);
      - [dispatcher/internal/controller/kafkachannel.go]: the reconciler of
        KafkaChannels ([Reconcile], [reconcile], [createSubscribableStatus],
        [updateStatus]).

    Go values are modelled as the code has them: a [*Namespace] is an
    address into a store of [Namespace] structs (or nil), so that the two
    maps of the cache share the structs they point to; a Go map is a
    [gmap]; a Go slice is a list, with the nil slice kept apart from the
    empty one where the code tests for it. An [int] is a [Z]: the cache adds
    one to a count only below the capacity or once per listed EventHub, and
    subtracts one only from a positive count, so no count wraps around. *)

From Stdlib Require Import ZArith Ascii.
From stdpp Require Import gmap strings list fin_maps pretty.

Local Open Scope Z_scope.

Set Default Proof Using "Type".

(** An [error] is modelled by the text its [Error()] method returns. *)
Abbreviation Error := string (only parsing).

(* ===================================================================== *)
(** * Part I: eventhubcache *)
(* ===================================================================== *)

Module EventHubCache.

(** Modelled from the spec: the [Namespace] struct is declared in
    namespace.go, which is not among the sources. The cache reads its
    [Name] and reads and writes its [Count]; the credentials and the
    [HubManager] it also carries are opaque to the cache (the listing the
    [HubManager] produces is supplied by [Env] below). *)
Record Namespace := mkNamespace {
  Name : string;
  Count : Z
}.

(** [corev1.Secret], restricted to what the cache reads: its name and its
    [Data] map. *)
Record Secret := mkSecret {
  SecretName : string;
  Data : gmap string string
}.

(** The [Cache] struct together with the [Namespace] structs its pointers
    refer to. [namespaceMap] maps an Azure namespace name to its struct,
    [eventhubMap] an EventHub (topic) name to the struct of its namespace.
    The values of both maps are pointers, which may alias: [Some n] is the
    address [n] of a struct of [store], [None] the nil pointer. *)
Record Cache := mkCache {
  store : gmap nat Namespace;
  namespaceMap : gmap string (option nat);
  eventhubMap : gmap string (option nat)
}.

(** [NewCache]: two empty maps. *)
Definition NewCache : Cache :=
  {| store := ∅; namespaceMap := ∅; eventhubMap := ∅ |}.

(** [namespace.Count] and [namespace.Count = v] through a pointer. A non-nil
    Go pointer always refers to a live struct, so the addresses the code
    meets are those of [store]; for an address outside it, which no run of
    the code produces, the count reads as zero and a write stores nothing. *)
Definition getCount (h : gmap nat Namespace) (n : nat) : Z :=
  from_option Count 0 (h !! n).

Definition setCount (h : gmap nat Namespace) (n : nat) (v : Z) : gmap nat Namespace :=
  alter (λ ns, {| Name := Name ns; Count := v |}) n h.

(** What the outside world answers during one [Update]: the secrets
    [util.GetKafkaSecrets] returns, and for the namespace built from a
    secret the EventHub names [namespace.HubManager.List] returns. *)
Record Env := mkEnv {
  GetKafkaSecrets : Error + list Secret;
  HubManagerList : Secret → Error + list string
}.

(** The calls of the cache's interface that change the EventHub map. *)
Inductive Call :=
  | CallAddEventHub (eventhub : string) (namespace : option nat)
  | CallRemoveEventHub (eventhub : string).

(** How a call of [Update] ends: it returns, with an error or with nil, or
    it panics. *)
Inductive Outcome :=
  | Returned (err : option Error)
  | Panicked.

Section Cache.

(** Constants of the package [constants], which is not among the sources. *)
Variable MaxEventHubsPerNamespace : Z.
Variables KafkaSecretKeyBrokers KafkaSecretKeyUsername
          KafkaSecretKeyPassword KafkaSecretKeyNamespace : string.

(** [string(secret.Data[key])]: a missing key reads as the empty string. *)
Definition dataField (secret : Secret) (key : string) : string :=
  default EmptyString (Data secret !! key).

(** [validateKafkaSecret]: all four fields are non-empty (the argument is the
    address of the loop variable, never nil). *)
Definition validateKafkaSecret (secret : Secret) : bool :=
  let brokers := dataField secret KafkaSecretKeyBrokers in
  let username := dataField secret KafkaSecretKeyUsername in
  let password := dataField secret KafkaSecretKeyPassword in
  let namespace := dataField secret KafkaSecretKeyNamespace in
  bool_decide (0 < String.length brokers)%nat
  && bool_decide (0 < String.length username)%nat
  && bool_decide (0 < String.length password)%nat
  && bool_decide (0 < String.length namespace)%nat.

(** Modelled from the spec: [NewNamespaceFromKafkaSecret] is defined in
    namespace.go, which is not among the sources. It builds a fresh
    [Namespace] named after the record's namespace field, whose count is
    seeded from the live topic list by the loop of [Update], not from any
    earlier state of the cache: it starts at zero. *)
Definition NewNamespaceFromKafkaSecret (secret : Secret) : Namespace :=
  {| Name := dataField secret KafkaSecretKeyNamespace; Count := 0 |}.

(** The inner loop of [Update], one EventHub of the listing:
    [c.eventhubMap[eventHub.Name] = namespace; namespace.Count++]. *)
Definition recordEventHub (n : nat) (c : Cache) (eventHub : string) : Cache :=
  {| store := setCount (store c) n (getCount (store c) n + 1);
     namespaceMap := namespaceMap c;
     eventhubMap := <[eventHub := Some n]> (eventhubMap c) |}.

(** The state after [c.namespaceMap[namespace.Name] = namespace], the new
    struct living at a fresh address. *)
Definition storeNamespace (namespace : Namespace) (c : Cache) : nat * Cache :=
  let n := fresh (dom (store c)) in
  (n, {| store := <[n := namespace]> (store c);
         namespaceMap := <[Name namespace := Some n]> (namespaceMap c);
         eventhubMap := eventhubMap c |}).

(** The outer loop of [Update] over [kafkaSecrets.Items]. The result is the
    cache as the call leaves it and the error returned, if any. *)
Fixpoint updateFromSecrets (env : Env) (kafkaSecrets : list Secret) (c : Cache)
  : Cache * option Error :=
  match kafkaSecrets with
  | [] => (c, None)
  | kafkaSecret :: rest =>
      if negb (validateKafkaSecret kafkaSecret)
      then (c, Some "invalid Kafka Secret found"%string)
      else
        let namespace := NewNamespaceFromKafkaSecret kafkaSecret in
        let '(n, c1) := storeNamespace namespace c in
        match HubManagerList env kafkaSecret with
        | inl err => (c1, Some err)
        | inr eventHubs =>
            updateFromSecrets env rest (foldl (recordEventHub n) c1 eventHubs)
        end
  end.

(** [Cache.Update] up to its closing log statement: the cache as the
    statements before it leave it, and the error returned, if any, by one of
    the three [return err]. The messages logged on the way to an error are
    left out. The whole function, with the closing log statement, is
    [UpdateIn] below. *)
Definition Update (env : Env) (c : Cache) : Cache * option Error :=
  match GetKafkaSecrets env with
  | inl err => (c, Some err)
  | inr kafkaSecrets => updateFromSecrets env kafkaSecrets c
  end.

(** [Cache.AddEventHub]. *)
Definition AddEventHub (eventhub : string) (namespace : option nat) (c : Cache) : Cache :=
  match namespace with
  | Some n =>
      if bool_decide (getCount (store c) n < MaxEventHubsPerNamespace)
      then {| store := setCount (store c) n (getCount (store c) n + 1);
              namespaceMap := namespaceMap c;
              eventhubMap := <[eventhub := Some n]> (eventhubMap c) |}
      else c
  | None => c
  end.

(** [Cache.GetNamespace]: a Go map lookup, nil for a missing key. *)
Definition GetNamespace (c : Cache) (eventhub : string) : option nat :=
  default None (eventhubMap c !! eventhub).

(** [Cache.RemoveEventHub]. *)
Definition RemoveEventHub (eventhub : string) (c : Cache) : Cache :=
  let namespace := GetNamespace c eventhub in
  let h :=
    match namespace with
    | Some n =>
        if bool_decide (getCount (store c) n > 0)
        then setCount (store c) n (getCount (store c) n - 1)
        else store c
    | None => store c
    end in
  {| store := h;
     namespaceMap := namespaceMap c;
     eventhubMap := delete eventhub (eventhubMap c) |}.

(** The loop of [GetNamespaceWithMaxCapacity] over the values of the
    namespace map, in the order the [range] visits them;
    [maxCapacityNamespace] is the loop's variable of that name. *)
Fixpoint scanNamespaces (h : gmap nat Namespace) (namespaces : list (option nat))
    (maxCapacityNamespace : option nat) : option nat :=
  match namespaces with
  | [] => maxCapacityNamespace
  | None :: rest => scanNamespaces h rest maxCapacityNamespace
  | Some n :: rest =>
      match maxCapacityNamespace with
      | None =>
          if bool_decide (getCount h n < MaxEventHubsPerNamespace)
          then scanNamespaces h rest (Some n)
          else scanNamespaces h rest None
      | Some m =>
          if bool_decide (getCount h m = 0) then Some m
          else if bool_decide (getCount h n < getCount h m)
               then scanNamespaces h rest (Some n)
               else scanNamespaces h rest (Some m)
      end
  end.

(** Go does not fix the order in which [range] visits a map: any
    enumeration of the entries is a possible order. *)
Definition rangeOrder {V} (m : gmap string V) (order : list (string * V)) : Prop :=
  order ≡ₚ map_to_list m.

(** [Cache.GetNamespaceWithMaxCapacity], for a given order of the range. *)
Definition GetNamespaceWithMaxCapacityIn (order : list (string * option nat))
    (c : Cache) : option nat :=
  scanNamespaces (store c) (order.*2) None.

(** The same with the order [map_to_list] happens to give. *)
Definition GetNamespaceWithMaxCapacity (c : Cache) : option nat :=
  GetNamespaceWithMaxCapacityIn (map_to_list (namespaceMap c)) c.

(** Running a sequence of calls. *)
Definition call (k : Call) (c : Cache) : Cache :=
  match k with
  | CallAddEventHub eventhub namespace => AddEventHub eventhub namespace c
  | CallRemoveEventHub eventhub => RemoveEventHub eventhub c
  end.

Definition run (calls : list Call) (c : Cache) : Cache :=
  foldl (λ c k, call k c) c calls.

(* --------------------------------------------------------------------- *)
(** ** Reading and writing counts *)

Lemma getCount_setCount h n v n' :
  getCount (setCount h n v) n' =
  if decide (n = n' ∧ is_Some (h !! n)) then v else getCount h n'.
Proof.
  unfold getCount, setCount. rewrite lookup_alter.
  destruct (decide (n = n')) as [<-|Hne].
  - destruct (h !! n) as [ns|] eqn:Hn; simpl.
    + rewrite decide_True; [done | eauto].
    + rewrite decide_False; [done | intros [_ [? ?]]; done].
  - rewrite decide_False; [done | tauto].
Qed.

(* --------------------------------------------------------------------- *)
(** ** [RemoveEventHub] *)

Lemma RemoveEventHub_namespaceMap eventhub c :
  namespaceMap (RemoveEventHub eventhub c) = namespaceMap c.
Proof. done. Qed.

Lemma AddEventHub_namespaceMap eventhub namespace c :
  namespaceMap (AddEventHub eventhub namespace c) = namespaceMap c.
Proof.
  unfold AddEventHub. destruct namespace as [n|]; [|done]. by case_bool_decide.
Qed.

Lemma call_namespaceMap k c : namespaceMap (call k c) = namespaceMap c.
Proof.
  destruct k; [apply AddEventHub_namespaceMap | apply RemoveEventHub_namespaceMap].
Qed.

Lemma run_namespaceMap calls c : namespaceMap (run calls c) = namespaceMap c.
Proof.
  revert c. induction calls as [|k calls IH]; intros c; [done|].
  unfold run in *. simpl. rewrite IH. apply call_namespaceMap.
Qed.

Lemma RemoveEventHub_unmapped eventhub c :
  GetNamespace c eventhub = None →
  RemoveEventHub eventhub c =
    {| store := store c; namespaceMap := namespaceMap c;
       eventhubMap := delete eventhub (eventhubMap c) |}.
Proof. intros Hg. unfold RemoveEventHub. by rewrite Hg. Qed.

(** C9. [RemoveEventHub] is idempotent. The count of a namespace goes down by
    one exactly when the EventHub is mapped to that namespace and its count is
    positive, and no other count changes; the EventHub's entry is always
    deleted and no other entry is touched; a second call with the same name
    changes nothing; and when the EventHub was not mapped the namespace
    structs are left as they were. *)
Theorem RemoveEventHub_idempotent (c : Cache) (eventhub : string) :
  let c' := RemoveEventHub eventhub c in
  (∀ n, getCount (store c') n =
        if decide (eventhubMap c !! eventhub = Some (Some n)
                   ∧ 0 < getCount (store c) n)
        then getCount (store c) n - 1 else getCount (store c) n)
  ∧ eventhubMap c' !! eventhub = None
  ∧ (∀ other, other ≠ eventhub → eventhubMap c' !! other = eventhubMap c !! other)
  ∧ namespaceMap c' = namespaceMap c
  ∧ RemoveEventHub eventhub c' = c'
  ∧ (eventhubMap c !! eventhub = None → store c' = store c).
Proof.
  intros c'. subst c'. repeat split.
  - intros n. unfold RemoveEventHub, GetNamespace. simpl.
    destruct (eventhubMap c !! eventhub) as [[m|]|] eqn:Hm; simpl;
      [| done ..].
    destruct (decide (m = n)) as [->|Hne].
    + case_bool_decide as Hpos.
      * assert (is_Some (store c !! n)) as Hn.
        { unfold getCount in Hpos.
          destruct (store c !! n); [eauto | simpl in Hpos; lia]. }
        rewrite getCount_setCount, (decide_True (P := n = n ∧ _)) by done.
        rewrite decide_True; [done | split; [done | lia]].
      * rewrite decide_False; [done | intros [_ ?]; lia].
    + rewrite (decide_False (P := Some (Some m) = Some (Some n) ∧ _))
        by (intros [[= ?] _]; done).
      case_bool_decide as Hpos; [|done].
      rewrite getCount_setCount, decide_False; [done | by intros [? _]].
  - simpl. apply lookup_delete_eq.
  - intros other Hne. simpl. by apply lookup_delete_ne.
  - rewrite RemoveEventHub_unmapped.
    + simpl. by rewrite delete_delete_eq.
    + unfold GetNamespace. simpl. by rewrite lookup_delete_eq.
  - intros Hm. unfold RemoveEventHub, GetNamespace. by rewrite Hm.
Qed.

(* --------------------------------------------------------------------- *)
(** ** Counts stay within the capacity *)

(** The struct at address [n] exists and its count is within [0] and the
    capacity. *)
Definition inRange (h : gmap nat Namespace) (n : nat) : Prop :=
  ∃ ns, h !! n = Some ns ∧ 0 ≤ Count ns ≤ MaxEventHubsPerNamespace.

(** Every namespace of the namespace map has its count within range. *)
Definition countsBounded (c : Cache) : Prop :=
  ∀ name n, namespaceMap c !! name = Some (Some n) → inRange (store c) n.

Lemma inRange_getCount h n :
  inRange h n → 0 ≤ getCount h n ≤ MaxEventHubsPerNamespace.
Proof. intros (ns & Hn & Hr). unfold getCount. by rewrite Hn. Qed.

Lemma inRange_setCount h m v n :
  inRange h n →
  (m = n → 0 ≤ v ≤ MaxEventHubsPerNamespace) →
  inRange (setCount h m v) n.
Proof.
  intros (ns & Hn & Hr) Hv. unfold inRange, setCount. rewrite lookup_alter.
  destruct (decide (m = n)) as [->|Hne].
  - rewrite Hn. simpl. eexists. split; [done|]. simpl. auto.
  - by exists ns.
Qed.

(** Each call keeps each struct, taken on its own, within range: whichever
    namespaces one looks at, those of the namespace map or those a caller
    passes in, a count that is within range stays so. *)
Lemma call_inRange k c n : inRange (store c) n → inRange (store (call k c)) n.
Proof.
  intros Hn. destruct k as [eventhub [m|] | eventhub]; simpl.
  - case_bool_decide as Hlt; [|done]. simpl.
    apply inRange_setCount; [done|]. intros ->.
    apply inRange_getCount in Hn. lia.
  - done.
  - unfold GetNamespace.
    destruct (default None (eventhubMap c !! eventhub)) as [m|]; [|done].
    case_bool_decide as Hpos; [|done].
    apply inRange_setCount; [done|]. intros ->.
    apply inRange_getCount in Hn. lia.
Qed.

Lemma run_inRange calls c n : inRange (store c) n → inRange (store (run calls c)) n.
Proof.
  revert c. induction calls as [|k calls IH]; intros c Hn; [done|].
  apply (IH (call k c)). by apply call_inRange.
Qed.

(** C5. Starting from a cache in which the count of every namespace is
    between zero and the capacity, after any sequence of [AddEventHub] and
    [RemoveEventHub] calls the count of every namespace is still between zero
    and the capacity. (Every prefix of a sequence is a sequence, so this holds
    at every moment of a run.) *)
Theorem counts_stay_bounded (calls : list Call) (c : Cache) :
  countsBounded c → countsBounded (run calls c).
Proof.
  intros Hc name n Hname. rewrite run_namespaceMap in Hname.
  apply run_inRange. by apply (Hc name).
Qed.

(* --------------------------------------------------------------------- *)
(** ** The two maps and the counts agree *)

(** The number of entries of the EventHub map that point to the struct at
    address [n]. *)
Definition pointing (m : gmap string (option nat)) (n : nat) : nat :=
  size (filter (λ kv, kv.2 = Some n) m).

(** The invariant of the cache: every EventHub of the EventHub map points to a
    namespace that the namespace map holds, and the count recorded in each
    namespace of the namespace map is the number of EventHubs pointing to
    it. *)
Definition consistent (c : Cache) : Prop :=
  (∀ eventhub p, eventhubMap c !! eventhub = Some p →
     ∃ n name, p = Some n ∧ namespaceMap c !! name = Some (Some n))
  ∧ (∀ name n, namespaceMap c !! name = Some (Some n) →
     ∃ ns, store c !! n = Some ns
           ∧ Count ns = Z.of_nat (pointing (eventhubMap c) n)).

(** A call that the invariant survives: a removal, an [AddEventHub] that
    changes nothing (nil namespace, or namespace at capacity), or an
    [AddEventHub] of an EventHub that the EventHub map does not hold yet to a
    namespace that the namespace map holds. *)
Definition admissible (k : Call) (c : Cache) : Prop :=
  match k with
  | CallAddEventHub eventhub namespace =>
      AddEventHub eventhub namespace c = c
      ∨ (eventhubMap c !! eventhub = None
         ∧ ∃ n name, namespace = Some n ∧ namespaceMap c !! name = Some (Some n))
  | CallRemoveEventHub _ => True
  end.

(** Every call of the sequence is admissible in the state it is made in. *)
Fixpoint admissibleRun (calls : list Call) (c : Cache) : Prop :=
  match calls with
  | [] => True
  | k :: rest => admissible k c ∧ admissibleRun rest (call k c)
  end.

Lemma pointing_insert m k p n :
  pointing (<[k := p]> m) n
  = ((if decide (p = Some n) then 1 else 0) + pointing (delete k m) n)%nat.
Proof.
  unfold pointing. rewrite map_filter_insert. simpl.
  destruct (decide (p = Some n)) as [Hp|Hp]; [|done].
  rewrite <-insert_delete_eq, map_size_insert_None by apply lookup_delete_eq.
  by rewrite map_filter_delete.
Qed.

Lemma pointing_delete m k n :
  pointing m n
  = ((if decide (m !! k = Some (Some n)) then 1 else 0)
     + pointing (delete k m) n)%nat.
Proof.
  destruct (m !! k) as [p|] eqn:Hk.
  - rewrite <-(insert_id m k p) at 1 by done. rewrite pointing_insert.
    destruct (decide (p = Some n)) as [->|Hp].
    + by rewrite decide_True.
    + rewrite decide_False; [done | congruence].
  - rewrite decide_False by done. by rewrite delete_id.
Qed.

Lemma consistent_AddEventHub eventhub n name c :
  consistent c →
  eventhubMap c !! eventhub = None →
  namespaceMap c !! name = Some (Some n) →
  consistent (AddEventHub eventhub (Some n) c).
Proof.
  intros [Hptr Hcnt] Hfresh Hname. unfold AddEventHub.
  case_bool_decide as Hlt; [|done]. split; simpl.
  - intros e p. rewrite lookup_insert_Some.
    intros [[_ <-] | [_ He]]; [by exists n, name | by apply (Hptr e)].
  - intros name' n' Hname'.
    destruct (Hcnt name' n' Hname') as (ns' & Hn' & Hc').
    rewrite pointing_insert, (delete_id _ _ Hfresh).
    unfold setCount. rewrite lookup_alter.
    destruct (decide (n = n')) as [<-|Hne].
    + rewrite Hn'. simpl. eexists. split; [done|]. simpl.
      rewrite decide_True by done. unfold getCount. rewrite Hn'. simpl. lia.
    + exists ns'. split; [done|].
      rewrite decide_False; [done | congruence].
Qed.

Lemma consistent_RemoveEventHub eventhub c :
  consistent c → consistent (RemoveEventHub eventhub c).
Proof.
  intros [Hptr Hcnt].
  destruct (eventhubMap c !! eventhub) as [p|] eqn:He.
  - destruct (Hptr _ _ He) as (n & name & -> & Hname).
    destruct (Hcnt _ _ Hname) as (ns & Hn & Hc).
    pose proof (pointing_delete (eventhubMap c) eventhub n) as Hpt.
    rewrite He, decide_True in Hpt by done.
    unfold RemoveEventHub, GetNamespace. rewrite He. simpl.
    rewrite bool_decide_true
      by (unfold getCount; rewrite Hn; simpl; lia).
    split; simpl.
    + intros e p. rewrite lookup_delete_Some. intros [_ Hp]. by apply (Hptr e).
    + intros name' n' Hname'.
      destruct (Hcnt name' n' Hname') as (ns' & Hn' & Hc').
      unfold setCount. rewrite lookup_alter.
      destruct (decide (n = n')) as [<-|Hne].
      * rewrite Hn. simpl. eexists. split; [done|]. simpl.
        unfold getCount. rewrite Hn. simpl. lia.
      * exists ns'. split; [done|].
        rewrite Hc', (pointing_delete (eventhubMap c) eventhub n'), He.
        rewrite decide_False; [done | congruence].
  - rewrite RemoveEventHub_unmapped by (unfold GetNamespace; by rewrite He).
    rewrite delete_id by done. by destruct c.
Qed.

Lemma consistent_call k c : consistent c → admissible k c → consistent (call k c).
Proof.
  intros Hc Hk. destruct k as [eventhub namespace | eventhub]; simpl in *.
  - destruct Hk as [-> | (Hfresh & n & name & -> & Hname)]; [done|].
    by apply (consistent_AddEventHub _ _ name).
  - by apply consistent_RemoveEventHub.
Qed.

(** C4, as the code has it. The invariant is preserved by every sequence of
    [AddEventHub] and [RemoveEventHub] calls in which each [AddEventHub] that
    takes effect adds an EventHub that the EventHub map does not hold yet to a
    namespace that the namespace map holds. *)
Theorem consistent_preserved (calls : list Call) (c : Cache) :
  consistent c → admissibleRun calls c → consistent (run calls c).
Proof.
  revert c. induction calls as [|k calls IH]; intros c Hc Hrun; [done|].
  destruct Hrun as [Hk Hrest]. apply (IH (call k c)); [|done].
  by apply consistent_call.
Qed.

(* --------------------------------------------------------------------- *)
(** ** [GetNamespaceWithMaxCapacity] *)

(** What the loop has established when it ends, whatever candidate it was
    entered with: the candidate it returns has room, is the one it started
    with or one of the namespaces visited, and no namespace visited and no
    earlier candidate has a smaller count. Counts below zero would defeat the
    early exit at an empty namespace, hence the first hypothesis. *)
Lemma scanNamespaces_spec h namespaces maxCapacityNamespace :
  (∀ n, Some n ∈ namespaces → 0 ≤ getCount h n) →
  (∀ m, maxCapacityNamespace = Some m →
        0 ≤ getCount h m < MaxEventHubsPerNamespace) →
  match scanNamespaces h namespaces maxCapacityNamespace with
  | Some r =>
      (maxCapacityNamespace = Some r ∨ Some r ∈ namespaces)
      ∧ getCount h r < MaxEventHubsPerNamespace
      ∧ (∀ m, maxCapacityNamespace = Some m → getCount h r ≤ getCount h m)
      ∧ (∀ n, Some n ∈ namespaces → getCount h r ≤ getCount h n)
  | None =>
      maxCapacityNamespace = None
      ∧ ∀ n, Some n ∈ namespaces → MaxEventHubsPerNamespace ≤ getCount h n
  end.
Proof.
  revert maxCapacityNamespace.
  induction namespaces as [|[n|] rest IH]; intros cand Hnonneg Hcand; simpl.
  - destruct cand as [m|].
    + destruct (Hcand m eq_refl). repeat split; auto.
      * intros ? [= <-]. lia.
      * intros n Hn. by apply elem_of_nil in Hn.
    + split; [done|]. intros n Hn. by apply elem_of_nil in Hn.
  - assert (Hrest : ∀ n', Some n' ∈ rest → 0 ≤ getCount h n')
      by (intros n' Hn'; apply Hnonneg; by right).
    assert (Hn : 0 ≤ getCount h n) by (apply Hnonneg; by left).
    destruct cand as [m|].
    + destruct (Hcand m eq_refl) as [Hm0 HmMax].
      case_bool_decide as Hzero.
      * repeat split; auto.
        -- intros ? [= <-]. lia.
        -- intros n' Hn'. rewrite Hzero. by apply Hnonneg.
      * case_bool_decide as Hless.
        -- specialize (IH (Some n) Hrest).
           destruct (scanNamespaces h rest (Some n)) as [r|].
           ++ destruct IH as ([[= <-]|Hin] & HrMax & Hrc & Hrall).
              { intros ? [= <-]. lia. }
              ** repeat split; [right; by left | lia | |].
                 --- intros ? [= <-]. lia.
                 --- intros n' [[= ->]|Hn']%elem_of_cons; [lia | by apply Hrall].
              ** pose proof (Hrc n eq_refl).
                 repeat split; [right; by right | lia | |].
                 --- intros ? [= <-]. lia.
                 --- intros n' [[= ->]|Hn']%elem_of_cons; [lia | by apply Hrall].
           ++ destruct IH as [[=] _]. intros ? [= <-]. lia.
        -- specialize (IH (Some m) Hrest).
           destruct (scanNamespaces h rest (Some m)) as [r|].
           ++ destruct IH as (Hin & HrMax & Hrc & Hrall).
              { intros ? [= <-]. lia. }
              pose proof (Hrc m eq_refl).
              repeat split; [| lia | |].
              ** destruct Hin as [Hin|Hin]; [by left | right; by right].
              ** intros ? [= <-]. lia.
              ** intros n' [[= ->]|Hn']%elem_of_cons; [lia | by apply Hrall].
           ++ destruct IH as [[=] _]. intros ? [= <-]. lia.
    + case_bool_decide as Hroom.
      * specialize (IH (Some n) Hrest).
        destruct (scanNamespaces h rest (Some n)) as [r|].
        -- destruct IH as (Hin & HrMax & Hrc & Hrall).
           { intros ? [= <-]. lia. }
           pose proof (Hrc n eq_refl).
           repeat split; [| lia | done |].
           ** right. destruct Hin as [[= <-]|Hin]; [by left | by right].
           ** intros n' [[= ->]|Hn']%elem_of_cons; [lia | by apply Hrall].
        -- destruct IH as [[=] _]. intros ? [= <-]. lia.
      * specialize (IH None Hrest).
        destruct (scanNamespaces h rest None) as [r|].
        -- destruct IH as (Hin & HrMax & Hrc & Hrall); [done|].
           repeat split; [| lia | done |].
           ** right. destruct Hin as [[=]|Hin]. by right.
           ** intros n' [[= ->]|Hn']%elem_of_cons; [lia | by apply Hrall].
        -- destruct IH as [_ Hall]; [done|]. split; [done|].
           intros n' [[= ->]|Hn']%elem_of_cons; [lia | by apply Hall].
  - assert (Hrest : ∀ n', Some n' ∈ rest → 0 ≤ getCount h n')
      by (intros n' Hn'; apply Hnonneg; by right).
    specialize (IH cand Hrest Hcand).
    destruct (scanNamespaces h rest cand) as [r|].
    + destruct IH as (Hin & HrMax & Hrc & Hrall).
      repeat split; [| done | done |].
      * destruct Hin as [Hin|Hin]; [by left | right; by right].
      * intros n' [[=]|Hn']%elem_of_cons. by apply Hrall.
    + destruct IH as [-> Hall]. split; [done|].
      intros n' [[=]|Hn']%elem_of_cons. by apply Hall.
Qed.

(** The pointers the range visits are the values of the namespace map. *)
Lemma rangeOrder_values (m : gmap string (option nat)) order n :
  rangeOrder m order →
  Some n ∈ order.*2 ↔ ∃ name, m !! name = Some (Some n).
Proof.
  intros Horder. rewrite list_elem_of_fmap. split.
  - intros ([name p] & Hp & Hin). simpl in Hp. subst p.
    exists name. apply elem_of_map_to_list. by rewrite <-Horder.
  - intros [name Hname]. exists (name, Some n). split; [done|].
    rewrite Horder. by apply elem_of_map_to_list.
Qed.

(** C2. In a cache in which the count of every namespace is between zero and
    the capacity, and whatever the order in which the range visits the
    namespace map, [GetNamespaceWithMaxCapacity] returns a namespace of the map
    whose count is strictly below the capacity and is the least among the
    namespaces strictly below the capacity; it returns nil exactly when every
    namespace is at capacity. *)
Theorem GetNamespaceWithMaxCapacity_correct
    (c : Cache) (order : list (string * option nat)) :
  rangeOrder (namespaceMap c) order →
  countsBounded c →
  let r := GetNamespaceWithMaxCapacityIn order c in
  (∀ n, r = Some n →
     (∃ name, namespaceMap c !! name = Some (Some n))
     ∧ getCount (store c) n < MaxEventHubsPerNamespace
     ∧ ∀ name' n', namespaceMap c !! name' = Some (Some n') →
         getCount (store c) n' < MaxEventHubsPerNamespace →
         getCount (store c) n ≤ getCount (store c) n')
  ∧ (r = None ↔
     ∀ name n, namespaceMap c !! name = Some (Some n) →
       getCount (store c) n = MaxEventHubsPerNamespace).
Proof.
  intros Horder Hbounded r. subst r. unfold GetNamespaceWithMaxCapacityIn.
  assert (Hvals : ∀ n, Some n ∈ order.*2 →
            0 ≤ getCount (store c) n ≤ MaxEventHubsPerNamespace).
  { intros n [name Hname]%(rangeOrder_values _ _ _ Horder).
    by apply inRange_getCount, (Hbounded name). }
  pose proof (scanNamespaces_spec (store c) (order.*2) None) as Hscan.
  destruct (scanNamespaces (store c) (order.*2) None) as [r|].
  - destruct Hscan as (Hin & HrMax & _ & Hrall); [intros n Hn; by apply Hvals | done |].
    destruct Hin as [[=]|Hin]. split.
    + intros n [= <-]. split; [by apply (rangeOrder_values _ order) | split; [done|]].
      intros name' n' Hname' _. apply Hrall, (rangeOrder_values _ _ _ Horder). eauto.
    + split; [done|]. intros Hfull. exfalso.
      apply (rangeOrder_values _ _ _ Horder) in Hin as [name Hname].
      specialize (Hfull _ _ Hname). lia.
  - destruct Hscan as [_ Hall]; [intros n Hn; by apply Hvals | done |].
    split; [done|]. split; [|done]. intros _ name n Hname.
    assert (Hn : Some n ∈ order.*2) by (apply (rangeOrder_values _ _ _ Horder); eauto).
    specialize (Hall n Hn). specialize (Hvals n Hn). lia.
Qed.

(* --------------------------------------------------------------------- *)
(** ** [Update] *)

(** How the loop of [Update] comes to return an error: a prefix of the
    secrets has been applied in full, and the next one either fails validation
    or has its listing refused after its namespace has been stored. *)
Lemma updateFromSecrets_error env kafkaSecrets c c' e :
  updateFromSecrets env kafkaSecrets c = (c', Some e) →
  ∃ applied failing rest c1,
    kafkaSecrets = applied ++ failing :: rest
    ∧ updateFromSecrets env applied c = (c1, None)
    ∧ ((validateKafkaSecret failing = false
        ∧ e = "invalid Kafka Secret found"%string ∧ c' = c1)
       ∨ (validateKafkaSecret failing = true
          ∧ HubManagerList env failing = inl e
          ∧ c' = (storeNamespace (NewNamespaceFromKafkaSecret failing) c1).2)).
Proof.
  revert c. induction kafkaSecrets as [|kafkaSecret rest IH]; intros c; simpl.
  - intros [=].
  - destruct (validateKafkaSecret kafkaSecret) eqn:Hvalid; simpl.
    + destruct (HubManagerList env kafkaSecret) as [err|eventHubs] eqn:Hlist.
      * intros [= <- <-]. exists [], kafkaSecret, rest, c.
        split; [done|]. split; [done|]. right. by rewrite Hvalid, Hlist.
      * intros Hrest. apply IH in Hrest
          as (applied & failing & rest' & c1 & -> & Happlied & Hfail).
        exists (kafkaSecret :: applied), failing, rest', c1.
        split; [done|]. split; [|done].
        simpl. by rewrite Hvalid, Hlist.
    + intros [= <- <-]. exists [], kafkaSecret, rest, c.
      split; [done|]. split; [done|]. left. by rewrite Hvalid.
Qed.

(** The two failures that come before the first write to the cache. *)
Lemma Update_fetch_failed env c err :
  GetKafkaSecrets env = inl err → Update env c = (c, Some err).
Proof. intros Hfetch. unfold Update. by rewrite Hfetch. Qed.

Lemma Update_first_invalid env c kafkaSecret rest :
  GetKafkaSecrets env = inr (kafkaSecret :: rest) →
  validateKafkaSecret kafkaSecret = false →
  Update env c = (c, Some "invalid Kafka Secret found"%string).
Proof. intros Hfetch Hvalid. unfold Update. rewrite Hfetch. simpl. by rewrite Hvalid. Qed.


(* --------------------------------------------------------------------- *)
(** ** More on [validateKafkaSecret] and [Update] *)

(** The namespace name of a secret, the EventHubs its namespace lists (none
    when the listing fails), and one pass of the loop body of [Update] for a
    namespace whose listing is [eventHubs]. *)
Definition namespaceNameOf (secret : Secret) : string :=
  dataField secret KafkaSecretKeyNamespace.

Definition listingOf (env : Env) (secret : Secret) : list string :=
  match HubManagerList env secret with
  | inr eventHubs => eventHubs
  | inl _ => []
  end.

(** A secret that the loop of [Update] gets past: it is valid and the listing
    of its namespace succeeds. *)
Definition applies (env : Env) (secret : Secret) : Prop :=
  validateKafkaSecret secret = true
  ∧ ∃ eventHubs, HubManagerList env secret = inr eventHubs.

Definition recordNamespace (namespace : Namespace) (eventHubs : list string)
    (c : Cache) : Cache :=
  let '(n, c1) := storeNamespace namespace c in
  foldl (recordEventHub n) c1 eventHubs.

Lemma length_pos_nonempty (s : string) : (0 < String.length s)%nat ↔ s ≠ EmptyString.
Proof. destruct s; simpl; split; try done; lia. Qed.

(** X1. A secret is valid exactly when its data holds a non-empty value under
    each of the four keys; a key that is missing counts as empty. *)
Theorem validateKafkaSecret_iff (secret : Secret) :
  validateKafkaSecret secret = true
  ↔ ∀ key, key ∈ [KafkaSecretKeyBrokers; KafkaSecretKeyUsername;
                  KafkaSecretKeyPassword; KafkaSecretKeyNamespace] →
      ∃ value, Data secret !! key = Some value ∧ value ≠ EmptyString.
Proof.
  assert (Hfield : ∀ key, (0 < String.length (dataField secret key))%nat
            ↔ ∃ value, Data secret !! key = Some value ∧ value ≠ EmptyString).
  { intros key. rewrite length_pos_nonempty. unfold dataField.
    destruct (Data secret !! key) as [value|]; simpl; split.
    - intros Hvalue. by exists value.
    - by intros (? & [= <-] & ?).
    - by intros [].
    - by intros (? & [=] & _). }
  unfold validateKafkaSecret.
  rewrite !andb_true_iff, !bool_decide_eq_true, !Hfield. split.
  - intros [[[Hb Hu] Hp] Hn] key Hkey.
    repeat (apply elem_of_cons in Hkey as [->|Hkey]); try done.
    by apply elem_of_nil in Hkey.
  - intros Hall. repeat split; apply Hall.
    + by left.
    + right. by left.
    + do 2 right. by left.
    + do 3 right. by left.
Qed.

Lemma setCount_insert h n v ns :
  h !! n = Some ns → setCount h n v = <[n := {| Name := Name ns; Count := v |}]> h.
Proof.
  intros Hn. apply map_eq. intros m. unfold setCount.
  rewrite lookup_alter, lookup_insert.
  destruct (decide (n = m)) as [<-|Hne]; [by rewrite Hn | done].
Qed.

Lemma foldl_recordEventHub n ns eventHubs c :
  store c !! n = Some ns →
  let c' := foldl (recordEventHub n) c eventHubs in
  store c' = <[n := {| Name := Name ns;
                       Count := Count ns + Z.of_nat (length eventHubs) |}]> (store c)
  ∧ namespaceMap c' = namespaceMap c
  ∧ ∀ eventHub, eventhubMap c' !! eventHub =
      if decide (eventHub ∈ eventHubs) then Some (Some n)
      else eventhubMap c !! eventHub.
Proof.
  revert ns c. induction eventHubs as [|hub rest IH]; intros ns c Hn; simpl.
  - split; [|split; [done|]].
    + rewrite Z.add_0_r. rewrite insert_id; [done | by destruct ns].
    + done.
  - set (c1 := recordEventHub n c hub).
    assert (Hn1 : store c1 !! n = Some {| Name := Name ns; Count := Count ns + 1 |}).
    { unfold c1, recordEventHub. simpl.
      rewrite (setCount_insert _ _ _ ns Hn), lookup_insert_eq.
      unfold getCount. by rewrite Hn. }
    destruct (IH _ c1 Hn1) as (Hstore & Hns & Hhubs). split; [|split].
    + rewrite Hstore. unfold c1, recordEventHub. simpl.
      rewrite (setCount_insert _ _ _ ns Hn), insert_insert_eq.
      do 2 f_equal. lia.
    + by rewrite Hns.
    + intros eventHub. rewrite Hhubs. unfold c1, recordEventHub. simpl.
      destruct (decide (eventHub = hub)) as [->|Hne].
      * rewrite lookup_insert_eq, (decide_True (P := hub ∈ hub :: rest)) by (by left).
        by case_decide.
      * rewrite lookup_insert_ne by done.
        destruct (decide (eventHub ∈ rest)) as [Hin|Hnin].
        -- rewrite decide_True; [done | by right].
        -- rewrite decide_False; [done | by intros [?|?]%elem_of_cons].
Qed.

(** One pass of the loop body: a struct at a fresh address with the count of
    the listing, the namespace map pointing to it under its name, and each
    listed EventHub pointing to it. *)
Lemma recordNamespace_spec namespace eventHubs c :
  let n := fresh (dom (store c)) in
  let c' := recordNamespace namespace eventHubs c in
  store c !! n = None
  ∧ store c' = <[n := {| Name := Name namespace;
                         Count := Count namespace + Z.of_nat (length eventHubs) |}]>
                 (store c)
  ∧ namespaceMap c' = <[Name namespace := Some n]> (namespaceMap c)
  ∧ ∀ eventHub, eventhubMap c' !! eventHub =
      if decide (eventHub ∈ eventHubs) then Some (Some n)
      else eventhubMap c !! eventHub.
Proof.
  intros n c'. subst c'. unfold recordNamespace, storeNamespace. fold n.
  split; [apply not_elem_of_dom, is_fresh|].
  match goal with |- context [foldl _ ?c1 _] => set (c1' := c1) end.
  destruct (foldl_recordEventHub n namespace eventHubs c1') as (Hstore & Hns & Hhubs).
  { apply lookup_insert_eq. }
  split; [|split; [by rewrite Hns | done]].
  rewrite Hstore. unfold c1'. simpl. by rewrite insert_insert_eq.
Qed.

Lemma updateFromSecrets_cons_ok env kafkaSecret rest eventHubs c :
  validateKafkaSecret kafkaSecret = true →
  HubManagerList env kafkaSecret = inr eventHubs →
  updateFromSecrets env (kafkaSecret :: rest) c
  = updateFromSecrets env rest
      (recordNamespace (NewNamespaceFromKafkaSecret kafkaSecret) eventHubs c).
Proof. intros Hvalid Hlist. simpl. by rewrite Hvalid, Hlist. Qed.

Lemma updateFromSecrets_ok_iff env kafkaSecrets c :
  (updateFromSecrets env kafkaSecrets c).2 = None
  ↔ Forall (λ secret, validateKafkaSecret secret = true
                      ∧ ∃ eventHubs, HubManagerList env secret = inr eventHubs)
           kafkaSecrets.
Proof.
  revert c. induction kafkaSecrets as [|kafkaSecret rest IH]; intros c.
  - simpl. split; [by constructor | done].
  - rewrite Forall_cons.
    destruct (validateKafkaSecret kafkaSecret) eqn:Hvalid.
    + destruct (HubManagerList env kafkaSecret) as [err|eventHubs] eqn:Hlist.
      * simpl. rewrite Hvalid, Hlist. simpl. split; [done|].
        by intros [[_ [? [=]]] _].
      * rewrite (updateFromSecrets_cons_ok _ _ _ eventHubs) by done.
        rewrite IH. split; [|by intros [_ ?]].
        intros Hrest. split; [|done]. split; [done | by eexists].
    + simpl. rewrite Hvalid. simpl. split; [done | by intros [[[=] _] _]].
Qed.

Lemma Update_ok_iff env c :
  (Update env c).2 = None
  ↔ ∃ kafkaSecrets,
      GetKafkaSecrets env = inr kafkaSecrets ∧ Forall (applies env) kafkaSecrets.
Proof.
  unfold Update. destruct (GetKafkaSecrets env) as [err|kafkaSecrets]; simpl.
  - split; [done | by intros (? & [=] & _)].
  - rewrite updateFromSecrets_ok_iff. split; [eauto|].
    by intros (? & [= <-] & ?).
Qed.

(** What the loop of [Update] leaves alone, whether it ends in an error or
    not. *)
Lemma updateFromSecrets_frame env kafkaSecrets c :
  let c' := (updateFromSecrets env kafkaSecrets c).1 in
  store c ⊆ store c'
  ∧ (∀ name, is_Some (namespaceMap c !! name) → is_Some (namespaceMap c' !! name))
  ∧ (∀ eventHub, is_Some (eventhubMap c !! eventHub) →
                 is_Some (eventhubMap c' !! eventHub))
  ∧ (∀ name, name ∉ namespaceNameOf <$> kafkaSecrets →
             namespaceMap c' !! name = namespaceMap c !! name)
  ∧ (∀ eventHub,
       (∀ secret, secret ∈ kafkaSecrets → eventHub ∉ listingOf env secret) →
       eventhubMap c' !! eventHub = eventhubMap c !! eventHub).
Proof.
  revert c. induction kafkaSecrets as [|kafkaSecret rest IH]; intros c c'; subst c'.
  - simpl. done.
  - destruct (validateKafkaSecret kafkaSecret) eqn:Hvalid;
      [| simpl; rewrite Hvalid; simpl; done].
    destruct (HubManagerList env kafkaSecret) as [err|eventHubs] eqn:Hlist.
    + simpl. rewrite Hvalid, Hlist. simpl.
      assert (Hfresh : store c !! fresh (dom (store c)) = None)
        by apply not_elem_of_dom, is_fresh.
      split; [by apply insert_subseteq|]. split; [|split; [done|split; [|done]]].
      * intros name Hname. rewrite lookup_insert_is_Some'. by right.
      * intros name Hname. rewrite lookup_insert_ne; [done|].
        intros <-. apply Hname. apply list_elem_of_here.
    + rewrite (updateFromSecrets_cons_ok _ _ _ eventHubs) by done.
      set (c1 := recordNamespace _ eventHubs c).
      destruct (recordNamespace_spec (NewNamespaceFromKafkaSecret kafkaSecret)
                  eventHubs c) as (Hfresh & Hstore & Hns & Hhubs).
      fold c1 in Hstore, Hns, Hhubs.
      destruct (IH c1) as (IHstore & IHns & IHhubs & IHname & IHhub).
      split; [|split; [|split; [|split]]].
      * etrans; [|exact IHstore]. rewrite Hstore. by apply insert_subseteq.
      * intros name Hname. apply IHns. rewrite Hns, lookup_insert_is_Some'. by right.
      * intros eventHub Hhub. apply IHhubs. rewrite Hhubs. by case_decide.
      * intros name Hname. rewrite fmap_cons, not_elem_of_cons in Hname.
        destruct Hname as [Hne Hname]. rewrite IHname by done.
        rewrite Hns, lookup_insert_ne; [done|]. by intros <-.
      * intros eventHub Hhub. rewrite IHhub.
        -- rewrite Hhubs, decide_False; [done|].
           specialize (Hhub kafkaSecret). unfold listingOf in Hhub.
           rewrite Hlist in Hhub. apply Hhub. by left.
        -- intros secret Hsecret. apply Hhub. by right.
Qed.

(** X3. [Update] deletes nothing, whatever its outcome: every namespace struct
    that existed is still there with the count it had, every name of the
    namespace map and every EventHub of the EventHub map is still a key; and
    the entry of a namespace name that no fetched secret carries, like the
    entry of an EventHub that no listing returns, is exactly the one of
    before. *)
Theorem Update_keeps_entries (env : Env) (c : Cache) :
  let c' := (Update env c).1 in
  store c ⊆ store c'
  ∧ (∀ name, is_Some (namespaceMap c !! name) → is_Some (namespaceMap c' !! name))
  ∧ (∀ eventHub, is_Some (eventhubMap c !! eventHub) →
                 is_Some (eventhubMap c' !! eventHub))
  ∧ ∀ kafkaSecrets,
      GetKafkaSecrets env = inr kafkaSecrets →
      (∀ name, name ∉ namespaceNameOf <$> kafkaSecrets →
               namespaceMap c' !! name = namespaceMap c !! name)
      ∧ (∀ eventHub,
           (∀ secret, secret ∈ kafkaSecrets → eventHub ∉ listingOf env secret) →
           eventhubMap c' !! eventHub = eventhubMap c !! eventHub).
Proof.
  intros c'. subst c'. unfold Update.
  destruct (GetKafkaSecrets env) as [err|kafkaSecrets]; simpl.
  - do 3 (split; [done|]). by intros ? [=].
  - destruct (updateFromSecrets_frame env kafkaSecrets c)
      as (Hstore & Hns & Hhubs & Hname & Hhub).
    do 3 (split; [done|]). intros ? [= <-]. by split.
Qed.

Lemma updateFromSecrets_app env applied rest c :
  updateFromSecrets env (applied ++ rest) c
  = match updateFromSecrets env applied c with
    | (c1, None) => updateFromSecrets env rest c1
    | (c1, Some err) => (c1, Some err)
    end.
Proof.
  revert c. induction applied as [|kafkaSecret applied IH]; intros c; [done|].
  simpl. destruct (validateKafkaSecret kafkaSecret); simpl; [|done].
  destruct (HubManagerList env kafkaSecret); [done|]. apply IH.
Qed.

(** X4. After an [Update] that returns no error, every fetched secret has its
    namespace struct, created by this [Update], named after the secret and
    counting the EventHubs of its listing. The namespace map points to it
    under its name unless a later secret carries the same name, and
    [GetNamespace] returns it for each EventHub of its listing that no later
    listing returns. *)
Theorem Update_reverse_index (env : Env) (c c' : Cache)
    (applied : list Secret) (kafkaSecret : Secret) (rest : list Secret) :
  GetKafkaSecrets env = inr (applied ++ kafkaSecret :: rest) →
  Update env c = (c', None) →
  ∃ n,
    store c !! n = None
    ∧ store c' !! n
      = Some {| Name := namespaceNameOf kafkaSecret;
                Count := Z.of_nat (length (listingOf env kafkaSecret)) |}
    ∧ (namespaceNameOf kafkaSecret ∉ namespaceNameOf <$> rest →
       namespaceMap c' !! namespaceNameOf kafkaSecret = Some (Some n))
    ∧ ∀ eventHub,
        eventHub ∈ listingOf env kafkaSecret →
        (∀ secret, secret ∈ rest → eventHub ∉ listingOf env secret) →
        GetNamespace c' eventHub = Some n.
Proof.
  intros Hfetch Hupdate. unfold Update in Hupdate. rewrite Hfetch in Hupdate.
  rewrite updateFromSecrets_app in Hupdate.
  destruct (updateFromSecrets env applied c) as [c1 [err|]] eqn:Happlied; [done|].
  assert (Hok : (updateFromSecrets env (kafkaSecret :: rest) c1).2 = None)
    by (by rewrite Hupdate).
  apply updateFromSecrets_ok_iff, Forall_cons in Hok
    as [[Hvalid [eventHubs Hlist]] _].
  rewrite (updateFromSecrets_cons_ok _ _ _ eventHubs) in Hupdate by done.
  set (c2 := recordNamespace _ eventHubs c1) in Hupdate.
  destruct (recordNamespace_spec (NewNamespaceFromKafkaSecret kafkaSecret)
              eventHubs c1) as (Hfresh & Hstore & Hns & Hhubs).
  fold c2 in Hstore, Hns, Hhubs.
  destruct (updateFromSecrets_frame env applied c) as (Hold & _).
  rewrite Happlied in Hold. simpl in Hold.
  destruct (updateFromSecrets_frame env rest c2) as (Hkeep & _ & _ & Hname & Hhub).
  rewrite Hupdate in Hkeep, Hname, Hhub. simpl in Hkeep, Hname, Hhub.
  assert (Hlisting : listingOf env kafkaSecret = eventHubs)
    by (unfold listingOf; by rewrite Hlist).
  exists (fresh (dom (store c1))). split; [|split; [|split]].
  - destruct (store c !! fresh (dom (store c1))) as [ns|] eqn:Hn; [|done].
    eapply lookup_weaken in Hn; [|exact Hold]. congruence.
  - eapply lookup_weaken; [|exact Hkeep].
    rewrite Hstore, lookup_insert_eq, Hlisting. simpl.
    by rewrite Z.add_0_l.
  - intros Hlast. rewrite Hname by done. rewrite Hns. apply lookup_insert_eq.
  - intros eventHub Hin Hlast. unfold GetNamespace.
    rewrite Hhub by done. rewrite Hhubs, decide_True; [done|].
    by rewrite <-Hlisting.
Qed.

(* --------------------------------------------------------------------- *)
(** ** [Update] when it returns an error *)

(** What a secret whose namespace the loop has stored contributes to the
    cache [c'], at its place in the list of the stored secrets ([post] are
    those stored after it): a struct that did not exist in [c], named after
    the secret and counting the EventHubs of its listing; the entry of the
    namespace map under its name, unless a later secret carries the same
    name; and the entry of each EventHub of its listing that no later listing
    returns. *)
Definition contributed (env : Env) (c c' : Cache) (secret : Secret)
    (post : list Secret) : Prop :=
  ∃ n,
    store c !! n = None
    ∧ store c' !! n
      = Some {| Name := namespaceNameOf secret;
                Count := Z.of_nat (length (listingOf env secret)) |}
    ∧ (namespaceNameOf secret ∉ namespaceNameOf <$> post →
       namespaceMap c' !! namespaceNameOf secret = Some (Some n))
    ∧ ∀ eventHub,
        eventHub ∈ listingOf env secret →
        (∀ later, later ∈ post → eventHub ∉ listingOf env later) →
        GetNamespace c' eventHub = Some n.

(** The state an [Update] that returns the error [e] leaves the cache in.
    Either the fetch of the secrets failed and the cache is as it was. Or the
    loop stopped at the secret [failing], every secret before it having been
    applied: [failing] is invalid, or it is valid and its listing was refused.
    The secrets whose namespace is then [stored] in the cache are those
    before [failing], and [failing] itself when it is valid. With none stored
    the cache is as it was; otherwise every struct of before is still there,
    the entries of the two maps that no stored secret names are those of
    before, and every stored secret has contributed its namespace and the
    EventHubs of its listing (none for [failing]). *)
Definition errorState (env : Env) (c c' : Cache) (e : Error) : Prop :=
  (GetKafkaSecrets env = inl e ∧ c' = c)
  ∨ ∃ applied failing rest,
      GetKafkaSecrets env = inr (applied ++ failing :: rest)
      ∧ Forall (applies env) applied
      ∧ (if validateKafkaSecret failing
         then HubManagerList env failing = inl e
         else e = "invalid Kafka Secret found"%string)
      ∧ let stored :=
          if validateKafkaSecret failing then applied ++ [failing] else applied in
        (stored = [] → c' = c)
        ∧ store c ⊆ store c'
        ∧ (∀ name, name ∉ namespaceNameOf <$> stored →
                   namespaceMap c' !! name = namespaceMap c !! name)
        ∧ (∀ eventHub,
             (∀ secret, secret ∈ stored → eventHub ∉ listingOf env secret) →
             eventhubMap c' !! eventHub = eventhubMap c !! eventHub)
        ∧ ∀ pre secret post,
            stored = pre ++ secret :: post → contributed env c c' secret post.

(** The secret at a place of the list, when the loop has got past those
    before it and the secret is valid: whether its listing succeeds or not,
    and whatever happens later, the cache holds what it contributed. *)
Lemma updateFromSecrets_contributed env pre secret post c :
  Forall (applies env) pre →
  validateKafkaSecret secret = true →
  contributed env c (updateFromSecrets env (pre ++ secret :: post) c).1 secret
    (match HubManagerList env secret with inl _ => [] | inr _ => post end).
Proof.
  intros Hpre Hvalid.
  apply (updateFromSecrets_ok_iff env pre c) in Hpre.
  rewrite updateFromSecrets_app.
  destruct (updateFromSecrets env pre c) as [c1 [err|]] eqn:Happlied; [done|].
  clear Hpre.
  destruct (updateFromSecrets_frame env pre c) as (Hold & _).
  rewrite Happlied in Hold. simpl in Hold.
  destruct (recordNamespace_spec (NewNamespaceFromKafkaSecret secret)
              (listingOf env secret) c1) as (Hfresh & Hstore & Hns & Hhubs).
  simpl in Hstore, Hns. rewrite Z.add_0_l in Hstore.
  set (n := fresh (dom (store c1))) in *.
  assert (Hnew : store c !! n = None).
  { destruct (store c !! n) as [ns|] eqn:Hn; [|done].
    eapply lookup_weaken in Hn; [|exact Hold]. congruence. }
  exists n. split; [done|]. unfold listingOf in *.
  destruct (HubManagerList env secret) as [err|eventHubs] eqn:Hlist.
  - simpl. rewrite Hvalid, Hlist. simpl.
    split; [apply lookup_insert_eq|]. split; [intros _; apply lookup_insert_eq|].
    by intros eventHub ?%elem_of_nil.
  - rewrite (updateFromSecrets_cons_ok _ _ _ eventHubs) by done.
    set (c2 := recordNamespace _ eventHubs c1) in *.
    destruct (updateFromSecrets_frame env post c2)
      as (Hkeep & _ & _ & Hname & Hhub).
    split; [|split].
    + eapply lookup_weaken; [|exact Hkeep]. rewrite Hstore. apply lookup_insert_eq.
    + intros Hlast. rewrite Hname by done. rewrite Hns. apply lookup_insert_eq.
    + intros eventHub Hin Hlast. unfold GetNamespace.
      rewrite Hhub.
      * by rewrite Hhubs, decide_True.
      * intros later Hlater. specialize (Hlast later Hlater).
        unfold listingOf. exact Hlast.
Qed.

(** C1, as the code has it. When [Update] returns an error the cache is in
    the state [errorState] describes: unchanged when the fetch of the secrets
    fails or the first secret is invalid, and otherwise holding everything the
    secrets before the failing one contributed (and, after a failed listing,
    the new, empty namespace of the failing secret as well). *)
Theorem Update_error_state (env : Env) (c c' : Cache) (e : Error) :
  Update env c = (c', Some e) → errorState env c c' e.
Proof.
  unfold Update, errorState. destruct (GetKafkaSecrets env) as [err|kafkaSecrets].
  { intros [= <- <-]. by left. }
  intros Hloop. right.
  destruct (updateFromSecrets_error _ _ _ _ _ Hloop)
    as (applied & failing & rest & c1 & -> & Happlied & Hfail).
  assert (Hok : Forall (applies env) applied).
  { apply (updateFromSecrets_ok_iff env applied c). by rewrite Happlied. }
  exists applied, failing, rest. split; [done|]. split; [done|].
  set (stored := if validateKafkaSecret failing then applied ++ [failing] else applied).
  assert (Hstate : c' = (updateFromSecrets env stored c).1
                   ∧ Forall (λ secret, validateKafkaSecret secret = true) stored
                   ∧ (∀ pre secret post, stored = pre ++ secret :: post →
                        Forall (applies env) pre
                        ∧ match HubManagerList env secret with
                          | inl _ => []
                          | inr _ => post
                          end = post)).
  { unfold stored.
    destruct Hfail as [(Hvalid & -> & ->) | (Hvalid & Hlist & ->)]; rewrite Hvalid.
    - split; [by rewrite Happlied|]. split.
      + eapply Forall_impl; [exact Hok|]. by intros ? [? _].
      + intros pre secret post ->.
        apply Forall_app in Hok as [Hpre [[_ [eventHubs Hlisting]] _]%Forall_cons].
        split; [done|]. by rewrite Hlisting.
    - split; [|split].
      + rewrite updateFromSecrets_app, Happlied. simpl. by rewrite Hvalid, Hlist.
      + apply Forall_app. split.
        * eapply Forall_impl; [exact Hok|]. by intros ? [? _].
        * by apply Forall_singleton.
      + intros pre secret post Hsplit.
        destruct post as [|last post _] using rev_ind.
        * apply app_inj_tail in Hsplit as [<- <-]. split; [done|].
          by destruct (HubManagerList env failing).
        * change (pre ++ secret :: post ++ [last])
            with (pre ++ (secret :: post) ++ [last]) in Hsplit.
          rewrite app_assoc in Hsplit. apply app_inj_tail in Hsplit as [-> _].
          apply Forall_app in Hok
            as [Hpre [[_ [eventHubs Hlisting]] _]%Forall_cons].
          split; [done|]. by rewrite Hlisting. }
  destruct Hstate as (-> & Hvalid & Hplaces).
  split; [destruct (validateKafkaSecret failing);
          by destruct Hfail as [(? & ? & _)|(? & ? & _)]|].
  destruct (updateFromSecrets_frame env stored c) as (Hstore & _ & _ & Hname & Hhub).
  split; [by intros ->|]. do 3 (split; [done|]).
  intros pre secret post Hsplit. destruct (Hplaces _ _ _ Hsplit) as [Hpre Hpost].
  rewrite Hsplit. rewrite <-Hpost at 2.
  apply updateFromSecrets_contributed; [done|].
  rewrite Hsplit in Hvalid.
  by apply Forall_app in Hvalid as [_ [? _]%Forall_cons].
Qed.

(* --------------------------------------------------------------------- *)
(** ** More on [AddEventHub], [RemoveEventHub] and the selection *)

(** X5. [AddEventHub] and [GetNamespace]. An [AddEventHub] that is given a
    namespace with room makes [GetNamespace] return that namespace for the
    EventHub, leaves the answer for every other EventHub as it was, adds one
    to the count of the namespace and touches no other struct. An
    [AddEventHub] that is given nil, or a namespace whose count has reached
    the capacity, changes nothing at all. *)
Theorem AddEventHub_GetNamespace (eventhub : string) (namespace : option nat)
    (c : Cache) :
  (∀ n, namespace = Some n →
        getCount (store c) n < MaxEventHubsPerNamespace →
        let c' := AddEventHub eventhub namespace c in
        GetNamespace c' eventhub = Some n
        ∧ (∀ other, other ≠ eventhub → GetNamespace c' other = GetNamespace c other)
        ∧ (is_Some (store c !! n) →
           getCount (store c') n = getCount (store c) n + 1)
        ∧ (∀ m, m ≠ n → store c' !! m = store c !! m))
  ∧ ((namespace = None
      ∨ ∃ n, namespace = Some n ∧ MaxEventHubsPerNamespace ≤ getCount (store c) n) →
     AddEventHub eventhub namespace c = c).
Proof.
  split.
  - intros n -> Hroom c'. subst c'. unfold AddEventHub, GetNamespace.
    rewrite bool_decide_true by done. simpl. split; [|split; [|split]].
    + by rewrite lookup_insert_eq.
    + intros other Hne. by rewrite lookup_insert_ne.
    + intros Hn. by rewrite getCount_setCount, decide_True.
    + intros m Hne. unfold setCount. by rewrite lookup_alter_ne.
  - intros [-> | (n & -> & Hfull)]; [done|]. unfold AddEventHub.
    rewrite bool_decide_false; [done | lia].
Qed.

Lemma setCount_setCount h n v v' : setCount (setCount h n v) n v' = setCount h n v'.
Proof.
  apply map_eq. intros m. unfold setCount. rewrite !lookup_alter.
  destruct (decide (n = m)) as [<-|Hne]; [|done].
  rewrite decide_True by done. by destruct (h !! n).
Qed.

(** X6. A removal undoes an addition: for an EventHub that the EventHub map does
    not hold and a namespace of the store whose count is between zero and the
    capacity, not reaching it, [AddEventHub] followed by [RemoveEventHub]
    gives back the cache one started from. *)
Theorem RemoveEventHub_AddEventHub (eventhub : string) (n : nat) (ns : Namespace)
    (c : Cache) :
  eventhubMap c !! eventhub = None →
  store c !! n = Some ns →
  0 ≤ Count ns < MaxEventHubsPerNamespace →
  RemoveEventHub eventhub (AddEventHub eventhub (Some n) c) = c.
Proof.
  intros Hfresh Hn [Hnonneg Hroom].
  assert (Hcount : getCount (store c) n = Count ns)
    by (unfold getCount; by rewrite Hn).
  unfold AddEventHub. rewrite Hcount, bool_decide_true by done.
  unfold RemoveEventHub, GetNamespace. simpl. rewrite lookup_insert_eq. simpl.
  rewrite getCount_setCount, decide_True by eauto.
  rewrite bool_decide_true by lia.
  rewrite setCount_setCount, delete_insert_id by done.
  replace (Count ns + 1 - 1) with (Count ns) by lia.
  rewrite (setCount_insert _ _ _ ns Hn), insert_id; [by destruct c | by destruct ns].
Qed.

(** The candidate the loop of [GetNamespaceWithMaxCapacity] returns has room
    and was visited, whatever the counts are. *)
Lemma scanNamespaces_room h namespaces maxCapacityNamespace r :
  (∀ m, maxCapacityNamespace = Some m →
        getCount h m < MaxEventHubsPerNamespace) →
  scanNamespaces h namespaces maxCapacityNamespace = Some r →
  getCount h r < MaxEventHubsPerNamespace
  ∧ (maxCapacityNamespace = Some r ∨ Some r ∈ namespaces).
Proof.
  revert maxCapacityNamespace.
  induction namespaces as [|[n|] rest IH]; intros cand Hcand; simpl.
  - intros ->. split; [by apply Hcand | by left].
  - destruct cand as [m|].
    + pose proof (Hcand m eq_refl) as Hm. case_bool_decide as Hzero.
      * intros [= <-]. split; [done | by left].
      * case_bool_decide as Hless; intros Hscan; apply IH in Hscan.
        -- destruct Hscan as [Hr [[= <-]|Hin]];
             (split; [done | right; by constructor]).
        -- intros ? [= <-]. lia.
        -- destruct Hscan as [Hr [Hin|Hin]];
             (split; [done|]); [by left | right; by constructor].
        -- done.
    + case_bool_decide as Hroom; intros Hscan; apply IH in Hscan.
      * destruct Hscan as [Hr [[= <-]|Hin]];
          (split; [done | right; by constructor]).
      * by intros ? [= <-].
      * destruct Hscan as [Hr [[=]|Hin]]. split; [done | right; by constructor].
      * done.
  - intros Hscan. apply IH in Hscan; [|done].
    destruct Hscan as [Hr [Hin|Hin]];
      (split; [done|]); [by left | right; by constructor].
Qed.

(** X7. Selection, then addition. Whatever the counts are and whatever the order
    of the range, the namespace that [GetNamespaceWithMaxCapacity] returns is
    one of the namespace map and has room, so that an [AddEventHub] with it
    is never refused: afterwards [GetNamespace] returns it for the EventHub
    added. *)
Theorem GetNamespaceWithMaxCapacity_then_AddEventHub
    (c : Cache) (order : list (string * option nat)) (n : nat) (eventhub : string) :
  rangeOrder (namespaceMap c) order →
  GetNamespaceWithMaxCapacityIn order c = Some n →
  (∃ name, namespaceMap c !! name = Some (Some n))
  ∧ getCount (store c) n < MaxEventHubsPerNamespace
  ∧ GetNamespace (AddEventHub eventhub (Some n) c) eventhub = Some n.
Proof.
  intros Horder Hselect. unfold GetNamespaceWithMaxCapacityIn in Hselect.
  apply scanNamespaces_room in Hselect as [Hroom [[=]|Hin]]; [|done].
  split; [by apply (rangeOrder_values _ order)|]. split; [done|].
  unfold AddEventHub, GetNamespace. rewrite bool_decide_true by done.
  simpl. by rewrite lookup_insert_eq.
Qed.

Lemma call_keeps_names k c n :
  Name <$> store (call k c) !! n = Name <$> store c !! n.
Proof.
  assert (Hset : ∀ h m v, Name <$> setCount h m v !! n = Name <$> h !! n).
  { intros h m v. unfold setCount. rewrite lookup_alter.
    destruct (decide (m = n)) as [->|]; [|done]. by destruct (h !! n). }
  destruct k as [eventhub [m|] | eventhub]; simpl.
  - case_bool_decide; [apply Hset | done].
  - done.
  - destruct (GetNamespace c eventhub) as [m|]; [|done].
    case_bool_decide; [apply Hset | done].
Qed.

(** X8. [AddEventHub] and [RemoveEventHub] work on counts and on the EventHub map
    only: no sequence of them changes the namespace map, and none creates,
    deletes or renames a namespace struct. *)
Theorem run_keeps_namespaces (calls : list Call) (c : Cache) :
  namespaceMap (run calls c) = namespaceMap c
  ∧ dom (store (run calls c)) = dom (store c)
  ∧ ∀ n, Name <$> store (run calls c) !! n = Name <$> store c !! n.
Proof.
  assert (Hnames : ∀ n, Name <$> store (run calls c) !! n = Name <$> store c !! n).
  { revert c. induction calls as [|k calls IH]; intros c n; [done|].
    unfold run in *. simpl. rewrite IH. apply call_keeps_names. }
  split; [apply run_namespaceMap|]. split; [|done].
  apply set_eq. intros n. rewrite !elem_of_dom, <-!(fmap_is_Some Name).
  by rewrite Hnames.
Qed.

(* --------------------------------------------------------------------- *)
(** ** The names logged by [Update] *)

(** [namespace.Name] through a pointer. *)
Definition getName (h : gmap nat Namespace) (n : nat) : string :=
  from_option Name EmptyString (h !! n).

(** [fmt.Sprintf("%s (%d)", namespaceName, namespace.Count)] and
    [fmt.Sprintf("%s -> %s", eventHubName, namespace.Name)]. *)
Definition namespaceNameEntry (h : gmap nat Namespace)
    (namespaceName : string) (n : nat) : string :=
  namespaceName +:+ " (" +:+ pretty (getCount h n) +:+ ")".

Definition eventHubNameEntry (h : gmap nat Namespace)
    (eventHubName : string) (n : nat) : string :=
  eventHubName +:+ " -> " +:+ getName h n.

(** The loop of the two functions: one entry is appended for each entry of
    the map, in the order of the range. Reading a field through a nil pointer
    panics, which is [None]. *)
Fixpoint appendEntries (entry : string → nat → string)
    (order : list (string * option nat)) (names : list string)
  : option (list string) :=
  match order with
  | [] => Some names
  | (_, None) :: _ => None
  | (key, Some n) :: rest => appendEntries entry rest (names ++ [entry key n])
  end.

(** [getNamespaceNames] and [getEventHubNames], for a given order of the
    range. The slice appended to is made with the length of the map, not with
    that capacity. *)
Definition getNamespaceNamesIn (order : list (string * option nat)) (c : Cache)
  : option (list string) :=
  appendEntries (namespaceNameEntry (store c)) order
    (replicate (size (namespaceMap c)) EmptyString).

Definition getEventHubNamesIn (order : list (string * option nat)) (c : Cache)
  : option (list string) :=
  appendEntries (eventHubNameEntry (store c)) order
    (replicate (size (eventhubMap c)) EmptyString).

(** [Cache.Update] in full, for given orders of the two ranges of its closing
    log statement. The statement is reached when no [return err] has been:
    the arguments of the log call are evaluated, [getNamespaceNames] first,
    and a panic in either ends the call. The cache is in both cases the one
    the loop has left. *)
Definition UpdateIn (namespaceOrder eventhubOrder : list (string * option nat))
    (env : Env) (c : Cache) : Cache * Outcome :=
  match Update env c with
  | (c', Some err) => (c', Returned (Some err))
  | (c', None) =>
      match getNamespaceNamesIn namespaceOrder c' with
      | None => (c', Panicked)
      | Some _ =>
          match getEventHubNamesIn eventhubOrder c' with
          | None => (c', Panicked)
          | Some _ => (c', Returned None)
          end
      end
  end.

Lemma appendEntries_Some entry order names :
  (∀ key, (key, None) ∉ order) →
  ∃ entries,
    appendEntries entry order names = Some (names ++ entries)
    ∧ length entries = length order
    ∧ ∀ key n, (key, Some n) ∈ order → entry key n ∈ entries.
Proof.
  revert names. induction order as [|[key [n|]] rest IH]; intros names Hnil; simpl.
  - exists []. rewrite app_nil_r. split; [done|]. split; [done|].
    by intros ?? ?%elem_of_nil.
  - destruct (IH (names ++ [entry key n])) as (entries & -> & Hlen & Hin).
    { intros key' Hkey'. apply (Hnil key'). by right. }
    exists (entry key n :: entries). rewrite <-app_assoc. simpl.
    split; [done|]. split; [by rewrite Hlen|].
    intros key' n' [[= -> ->]|Hrest]%elem_of_cons; [by left|].
    right. by apply Hin.
  - exfalso. apply (Hnil key). by left.
Qed.

Lemma appendEntries_None entry order names key :
  (key, None) ∈ order → appendEntries entry order names = None.
Proof.
  revert names. induction order as [|[key' [n|]] rest IH]; intros names Hin; simpl.
  - by apply elem_of_nil in Hin.
  - apply elem_of_cons in Hin as [[=]|Hin]. by apply IH.
  - done.
Qed.

(** The shape of what [getNamespaceNames] and [getEventHubNames] return, for
    a map of [k] entries none of which is nil: [2 * k] strings, of which the
    first [k] are empty and the others hold the entry of each entry of the
    map. With a nil entry in the map the function panics. *)
Lemma names_shape entry (m : gmap string (option nat)) order :
  rangeOrder m order →
  ((∀ key, m !! key ≠ Some None) →
   ∃ names,
     appendEntries entry order (replicate (size m) EmptyString) = Some names
     ∧ length names = (2 * size m)%nat
     ∧ take (size m) names = replicate (size m) EmptyString
     ∧ ∀ key n, m !! key = Some (Some n) → entry key n ∈ drop (size m) names)
  ∧ (∀ key, m !! key = Some None →
     appendEntries entry order (replicate (size m) EmptyString) = None).
Proof.
  intros Horder.
  assert (Hmem : ∀ key p, (key, p) ∈ order ↔ m !! key = Some p).
  { intros key p. rewrite Horder. apply elem_of_map_to_list. }
  assert (Hlen : length order = size m).
  { unfold rangeOrder in Horder. by rewrite Horder, length_map_to_list. }
  split.
  - intros Hnil.
    destruct (appendEntries_Some entry order (replicate (size m) EmptyString))
      as (entries & Hentries & Hentlen & Hin).
    { intros key Hkey. by apply (Hnil key), Hmem. }
    exists (replicate (size m) EmptyString ++ entries).
    split; [done|]. split; [|split].
    + rewrite length_app, length_replicate. lia.
    + rewrite take_app_length'; [done | by rewrite length_replicate].
    + intros key n Hkey.
      rewrite drop_app_length'; [| by rewrite length_replicate].
      by apply Hin, Hmem.
  - intros key Hkey. apply (appendEntries_None _ _ _ key). by apply Hmem.
Qed.

(** X9. The names that [Update] logs. For a cache whose maps hold no nil pointer,
    and whatever the order of the range, [getNamespaceNames] returns twice as
    many strings as the namespace map has entries: as many empty strings as
    there are entries, then the text "name (count)" of each namespace.
    [getEventHubNames] does the same with the EventHub map and the text
    "eventhub -> namespace". A nil pointer in the map makes either function
    panic. *)
Theorem logged_names_shape (c : Cache)
    (namespaceOrder eventhubOrder : list (string * option nat)) :
  rangeOrder (namespaceMap c) namespaceOrder →
  rangeOrder (eventhubMap c) eventhubOrder →
  ((∀ name, namespaceMap c !! name ≠ Some None) →
   ∃ names,
     getNamespaceNamesIn namespaceOrder c = Some names
     ∧ length names = (2 * size (namespaceMap c))%nat
     ∧ take (size (namespaceMap c)) names
       = replicate (size (namespaceMap c)) EmptyString
     ∧ ∀ name n, namespaceMap c !! name = Some (Some n) →
         namespaceNameEntry (store c) name n
         ∈ drop (size (namespaceMap c)) names)
  ∧ ((∀ eventhub, eventhubMap c !! eventhub ≠ Some None) →
     ∃ names,
       getEventHubNamesIn eventhubOrder c = Some names
       ∧ length names = (2 * size (eventhubMap c))%nat
       ∧ take (size (eventhubMap c)) names
         = replicate (size (eventhubMap c)) EmptyString
       ∧ ∀ eventhub n, eventhubMap c !! eventhub = Some (Some n) →
           eventHubNameEntry (store c) eventhub n
           ∈ drop (size (eventhubMap c)) names)
  ∧ (∀ name, namespaceMap c !! name = Some None →
             getNamespaceNamesIn namespaceOrder c = None)
  ∧ (∀ eventhub, eventhubMap c !! eventhub = Some None →
                 getEventHubNamesIn eventhubOrder c = None).
Proof.
  intros Hns Hhubs.
  destruct (names_shape (namespaceNameEntry (store c)) _ _ Hns) as [Hns1 Hns2].
  destruct (names_shape (eventHubNameEntry (store c)) _ _ Hhubs) as [Hhubs1 Hhubs2].
  done.
Qed.

(** The loop panics exactly when the map holds a nil pointer. *)
Lemma appendEntries_panics entry (m : gmap string (option nat)) order names :
  rangeOrder m order →
  appendEntries entry order names = None ↔ ∃ key, m !! key = Some None.
Proof.
  intros Horder.
  assert (Hlist : appendEntries entry order names = None ↔ ∃ key, (key, None) ∈ order).
  { clear Horder. revert names.
    induction order as [|[key [n|]] rest IH]; intros names; simpl.
    - split; [done | by intros [? ?%elem_of_nil]].
    - rewrite IH. split; intros [key' Hkey'].
      + exists key'. by right.
      + apply elem_of_cons in Hkey' as [[=]|Hkey']. by exists key'.
    - split; [|done]. intros _. exists key. by left. }
  rewrite Hlist. unfold rangeOrder in Horder.
  split; intros [key Hkey]; exists key.
  - by apply elem_of_map_to_list; rewrite <-Horder.
  - rewrite Horder. by apply elem_of_map_to_list.
Qed.

(** The nil pointers that a pass of the loop over secrets that all apply
    leaves in the two maps: those that were there and have not been
    overwritten. *)
Lemma updateFromSecrets_nil env kafkaSecrets c :
  Forall (applies env) kafkaSecrets →
  let c' := (updateFromSecrets env kafkaSecrets c).1 in
  (∀ name, namespaceMap c' !! name = Some None
           ↔ namespaceMap c !! name = Some None
             ∧ name ∉ namespaceNameOf <$> kafkaSecrets)
  ∧ (∀ eventHub, eventhubMap c' !! eventHub = Some None
           ↔ eventhubMap c !! eventHub = Some None
             ∧ ∀ secret, secret ∈ kafkaSecrets → eventHub ∉ listingOf env secret).
Proof.
  revert c. induction kafkaSecrets as [|kafkaSecret rest IH]; intros c Hok c'; subst c'.
  - simpl. split; intros key; (split; [intros ?; split; [done|] | by intros [? _]]).
    + by intros ?%elem_of_nil.
    + by intros ? ?%elem_of_nil.
  - apply Forall_cons in Hok as [[Hvalid [eventHubs Hlist]] Hok].
    rewrite (updateFromSecrets_cons_ok _ _ _ eventHubs) by done.
    destruct (recordNamespace_spec (NewNamespaceFromKafkaSecret kafkaSecret)
                eventHubs c) as (_ & _ & Hns & Hhubs).
    set (c1 := recordNamespace _ eventHubs c) in *.
    destruct (IH c1 Hok) as [IHns IHhubs].
    assert (Hlisting : listingOf env kafkaSecret = eventHubs)
      by (unfold listingOf; by rewrite Hlist).
    split.
    + intros name. rewrite IHns, Hns, fmap_cons, not_elem_of_cons.
      simpl. rewrite lookup_insert_Some. unfold namespaceNameOf. split.
      * intros [[[_ [=]] | [Hne Hc]] Hrest]. split; [done|].
        split; [by intros -> | done].
      * intros [Hc [Hne Hrest]]. split; [|done]. right.
        split; [by intros <- | done].
    + intros eventHub. rewrite IHhubs, Hhubs. split.
      * intros [Hc Hrest]. case_decide as Hin; [done|]. split; [done|].
        intros secret [->|Hsecret]%elem_of_cons; [by rewrite Hlisting | by apply Hrest].
      * intros [Hc Hall]. split.
        -- rewrite decide_False; [done|]. rewrite <-Hlisting. apply Hall. by left.
        -- intros secret Hsecret. apply Hall. by right.
Qed.

(** The calls of the interface put no nil pointer into the maps: a cache
    built from [NewCache] by [Update], [AddEventHub] and [RemoveEventHub]
    holds none. *)
Definition noNil (c : Cache) : Prop :=
  (∀ name, namespaceMap c !! name ≠ Some None)
  ∧ (∀ eventHub, eventhubMap c !! eventHub ≠ Some None).

Lemma updateFromSecrets_noNil env kafkaSecrets c :
  noNil c → noNil (updateFromSecrets env kafkaSecrets c).1.
Proof.
  revert c. induction kafkaSecrets as [|kafkaSecret rest IH]; intros c Hc; [done|].
  destruct (validateKafkaSecret kafkaSecret) eqn:Hvalid;
    [| simpl; by rewrite Hvalid].
  destruct (HubManagerList env kafkaSecret) as [err|eventHubs] eqn:Hlist.
  - simpl. rewrite Hvalid, Hlist. simpl. destruct Hc as [Hnames Hhubs].
    split; [|done]. intros name. simpl. rewrite lookup_insert_Some.
    intros [[_ [=]] | [_ Hname]]. by apply (Hnames name).
  - rewrite (updateFromSecrets_cons_ok _ _ _ eventHubs) by done.
    destruct (recordNamespace_spec (NewNamespaceFromKafkaSecret kafkaSecret)
                eventHubs c) as (_ & _ & Hns & Hmap).
    apply IH. destruct Hc as [Hnames Hhubs]. split.
    + intros name. rewrite Hns, lookup_insert_Some.
      intros [[_ [=]] | [_ Hname]]. by apply (Hnames name).
    + intros eventHub. rewrite Hmap. case_decide; [done | apply Hhubs].
Qed.

Lemma noNil_kept :
  noNil NewCache
  ∧ (∀ env c, noNil c → noNil (Update env c).1)
  ∧ (∀ eventhub namespace c, noNil c → noNil (AddEventHub eventhub namespace c))
  ∧ (∀ eventhub c, noNil c → noNil (RemoveEventHub eventhub c)).
Proof.
  split; [|split; [|split]].
  - split; intros key; simpl; by rewrite lookup_empty.
  - intros env c Hc. unfold Update.
    destruct (GetKafkaSecrets env); [done | by apply updateFromSecrets_noNil].
  - intros eventhub namespace c [Hnames Hhubs]. unfold AddEventHub.
    destruct namespace as [n|]; [|done]. case_bool_decide; [|done].
    split; [done|]. intros eventHub. simpl. rewrite lookup_insert_Some.
    intros [[_ [=]] | [_ Hhub]]. by apply (Hhubs eventHub).
  - intros eventhub c [Hnames Hhubs]. split; [done|]. intros eventHub. simpl.
    rewrite lookup_delete_Some. intros [_ Hhub]. by apply (Hhubs eventHub).
Qed.

(** X2. How [Update] ends, whatever the orders of the ranges of its closing
    log statement. It returns nil exactly when the secrets are fetched, every
    secret is valid, every listing succeeds, and every nil pointer that the
    two maps held has been overwritten by the loop: its key is the namespace
    name of a secret, or an EventHub of a listing. It panics, in the closing
    log statement, exactly when the first three hold and some nil pointer has
    been left. It returns an error exactly when the first three do not all
    hold. For a cache whose maps hold no nil pointer, as is every cache that
    the calls of the interface build from [NewCache] (see [noNil_kept]),
    [Update] therefore never panics, and returns nil exactly when the secrets
    are fetched, every secret is valid and every listing succeeds. *)
Theorem Update_succeeds_iff (env : Env) (c : Cache)
    (namespaceOrder eventhubOrder : list (string * option nat)) :
  rangeOrder (namespaceMap (Update env c).1) namespaceOrder →
  rangeOrder (eventhubMap (Update env c).1) eventhubOrder →
  let outcome := (UpdateIn namespaceOrder eventhubOrder env c).2 in
  let passes kafkaSecrets :=
    GetKafkaSecrets env = inr kafkaSecrets
    ∧ Forall (λ secret, validateKafkaSecret secret = true
                        ∧ ∃ eventHubs, HubManagerList env secret = inr eventHubs)
             kafkaSecrets in
  (outcome = Returned None
   ↔ ∃ kafkaSecrets,
       passes kafkaSecrets
       ∧ (∀ name, namespaceMap c !! name = Some None →
                  name ∈ namespaceNameOf <$> kafkaSecrets)
       ∧ (∀ eventHub, eventhubMap c !! eventHub = Some None →
                      ∃ secret, secret ∈ kafkaSecrets
                                ∧ eventHub ∈ listingOf env secret))
  ∧ (outcome = Panicked
     ↔ ∃ kafkaSecrets,
         passes kafkaSecrets
         ∧ ((∃ name, namespaceMap c !! name = Some None
                     ∧ name ∉ namespaceNameOf <$> kafkaSecrets)
            ∨ (∃ eventHub, eventhubMap c !! eventHub = Some None
                           ∧ ∀ secret, secret ∈ kafkaSecrets →
                                       eventHub ∉ listingOf env secret)))
  ∧ ((∃ e, outcome = Returned (Some e)) ↔ ¬ ∃ kafkaSecrets, passes kafkaSecrets)
  ∧ ((∀ name, namespaceMap c !! name ≠ Some None) →
     (∀ eventHub, eventhubMap c !! eventHub ≠ Some None) →
     outcome ≠ Panicked
     ∧ (outcome = Returned None ↔ ∃ kafkaSecrets, passes kafkaSecrets)).
Proof.
  intros Hnamespaces Heventhubs outcome passes.
  assert (Hpasses : (Update env c).2 = None ↔ ∃ kafkaSecrets, passes kafkaSecrets)
    by apply Update_ok_iff.
  assert (Hnil : ∀ kafkaSecrets, passes kafkaSecrets →
            (∀ name, namespaceMap (Update env c).1 !! name = Some None
                     ↔ namespaceMap c !! name = Some None
                       ∧ name ∉ namespaceNameOf <$> kafkaSecrets)
            ∧ (∀ eventHub, eventhubMap (Update env c).1 !! eventHub = Some None
                     ↔ eventhubMap c !! eventHub = Some None
                       ∧ ∀ secret, secret ∈ kafkaSecrets →
                                   eventHub ∉ listingOf env secret)).
  { intros kafkaSecrets [Hfetch Hok]. unfold Update. rewrite Hfetch.
    by apply updateFromSecrets_nil. }
  assert (Hsame : ∀ s1 s2, passes s1 → passes s2 → s1 = s2).
  { intros s1 s2 [H1 _] [H2 _]. congruence. }
  assert (Houtcome :
    match (Update env c).2 with
    | Some e => outcome = Returned (Some e)
    | None =>
        ((∃ name, namespaceMap (Update env c).1 !! name = Some None)
         ∨ (∃ eventHub, eventhubMap (Update env c).1 !! eventHub = Some None))
        ∧ outcome = Panicked
        ∨ (∀ name, namespaceMap (Update env c).1 !! name ≠ Some None)
          ∧ (∀ eventHub, eventhubMap (Update env c).1 !! eventHub ≠ Some None)
          ∧ outcome = Returned None
    end).
  { unfold outcome, UpdateIn, getNamespaceNamesIn, getEventHubNamesIn.
    destruct (Update env c) as [c' [e|]]; [done|]. cbn [fst snd] in *.
    destruct (appendEntries (namespaceNameEntry (store c')) namespaceOrder _)
      as [names|] eqn:Hnames.
    - destruct (appendEntries (eventHubNameEntry (store c')) eventhubOrder _)
        as [hubs|] eqn:Hhubs.
      + right. split; [|split; [|done]].
        * intros name Hname.
          assert (Hpanic : appendEntries (namespaceNameEntry (store c')) namespaceOrder
                    (replicate (size (namespaceMap c')) EmptyString) = None)
            by (apply (appendEntries_panics _ _ _ _ Hnamespaces); eauto).
          congruence.
        * intros eventHub Hhub.
          assert (Hpanic : appendEntries (eventHubNameEntry (store c')) eventhubOrder
                    (replicate (size (eventhubMap c')) EmptyString) = None)
            by (apply (appendEntries_panics _ _ _ _ Heventhubs); eauto).
          congruence.
      + left. split; [|done]. right.
        by apply (appendEntries_panics _ _ _ _ Heventhubs) in Hhubs.
    - left. split; [|done]. left.
      by apply (appendEntries_panics _ _ _ _ Hnamespaces) in Hnames. }
  destruct (Update env c).2 as [e|] eqn:Hresult.
  { assert (Hnone : ¬ ∃ kafkaSecrets, passes kafkaSecrets)
      by (rewrite <-Hpasses; done).
    rewrite Houtcome. split; [|split; [|split]].
    - split; [done|]. intros (kafkaSecrets & Hp & _). destruct Hnone; eauto.
    - split; [done|]. intros (kafkaSecrets & Hp & _). destruct Hnone; eauto.
    - split; [done | eauto].
    - intros _ _. split; [done|]. split; [done|]. intros Hp. by destruct Hnone. }
  destruct (proj1 Hpasses eq_refl) as [kafkaSecrets Hp].
  destruct (Hnil _ Hp) as [Hnames Hhubs].
  assert (Hexists : ∀ eventHub,
            (∃ secret, secret ∈ kafkaSecrets ∧ eventHub ∈ listingOf env secret)
            ∨ ∀ secret, secret ∈ kafkaSecrets → eventHub ∉ listingOf env secret).
  { intros eventHub.
    destruct (decide (eventHub ∈ kafkaSecrets ≫= listingOf env)) as [Hin|Hnin].
    - left. apply list_elem_of_bind in Hin as (secret & ? & ?). eauto.
    - right. intros secret Hsecret Hin. apply Hnin, list_elem_of_bind. eauto. }
  split; [|split; [|split]].
  - split.
    + intros Hreturned. exists kafkaSecrets. split; [done|].
      destruct Houtcome as [[_ Hpanicked] | (Hno1 & Hno2 & _)]; [congruence|].
      split.
      * intros name Hname.
        destruct (decide (name ∈ namespaceNameOf <$> kafkaSecrets)) as [|Hnin];
          [done|].
        destruct (Hno1 name). by apply Hnames.
      * intros eventHub Hhub. destruct (Hexists eventHub) as [|Hnin]; [done|].
        destruct (Hno2 eventHub). by apply Hhubs.
    + intros (kafkaSecrets' & Hp' & Hover1 & Hover2).
      rewrite (Hsame _ _ Hp' Hp) in Hover1, Hover2.
      destruct Houtcome as [[[[name Hname] | [eventHub Hhub]] _] | (_ & _ & ?)];
        [| |done].
      * destruct (proj1 (Hnames name) Hname) as [Hname' Hnin]. exfalso. apply Hnin. by apply Hover1.
      * destruct (proj1 (Hhubs eventHub) Hhub) as [Hhub' Hnin].
        destruct (Hover2 _ Hhub') as (secret & Hsecret & Hin).
        exfalso. by apply (Hnin secret Hsecret).
  - split.
    + intros Hpanicked. exists kafkaSecrets. split; [done|].
      destruct Houtcome as [[[[name Hname] | [eventHub Hhub]] _] | (_ & _ & ?)];
        [| |congruence].
      * left. exists name. by apply Hnames.
      * right. exists eventHub. by apply Hhubs.
    + intros (kafkaSecrets' & Hp' & Hleft).
      rewrite (Hsame _ _ Hp' Hp) in Hleft.
      destruct Houtcome as [[_ ?] | (Hno1 & Hno2 & _)]; [done|].
      destruct Hleft as [[name Hname] | [eventHub Hhub]].
      * destruct (Hno1 name). by apply Hnames.
      * destruct (Hno2 eventHub). by apply Hhubs.
  - split.
    + intros [e He]. destruct Houtcome as [[_ ?] | (_ & _ & ?)]; congruence.
    + intros Hnone. destruct Hnone. eauto.
  - intros Hno1 Hno2.
    destruct Houtcome as [[[[name Hname] | [eventHub Hhub]] _] | (_ & _ & Hreturned)].
    + destruct (proj1 (Hnames name) Hname) as [Hname' _]. by destruct (Hno1 name).
    + destruct (proj1 (Hhubs eventHub) Hhub) as [Hhub' _]. by destruct (Hno2 eventHub).
    + rewrite Hreturned. split; [done|]. split; [eauto | done].
Qed.

(* --------------------------------------------------------------------- *)
(** ** [Update] and the invariant of the cache *)

Lemma pointing_none (m : gmap string (option nat)) n :
  (∀ eventhub, m !! eventhub ≠ Some (Some n)) → pointing m n = 0%nat.
Proof.
  intros Hnone. unfold pointing. apply map_size_empty_iff, map_eq.
  intros eventhub. rewrite lookup_empty. apply map_lookup_filter_None.
  right. intros p Hp. simpl. intros ->. by apply (Hnone eventhub).
Qed.

Lemma consistent_storeNamespace namespace c :
  consistent c →
  namespaceMap c !! Name namespace = None →
  Count namespace = 0 →
  consistent (storeNamespace namespace c).2.
Proof.
  intros [Hptr Hcnt] Hname Hzero. unfold storeNamespace. simpl.
  set (n := fresh (dom (store c))).
  assert (Hfresh : store c !! n = None) by apply not_elem_of_dom, is_fresh.
  split; simpl.
  - intros eventhub p Hp. destruct (Hptr _ _ Hp) as (n' & name' & -> & Hname').
    exists n', name'. split; [done|]. rewrite lookup_insert_ne; [done|].
    intros <-. congruence.
  - intros name' n'. rewrite lookup_insert_Some.
    intros [[<- [= <-]] | [Hne Hname']].
    + exists namespace. rewrite lookup_insert_eq. split; [done|].
      rewrite pointing_none; [by rewrite Hzero|].
      intros eventhub Hp. destruct (Hptr _ _ Hp) as (n' & name' & [= <-] & Hname').
      destruct (Hcnt _ _ Hname') as (ns & Hns & _). congruence.
    + destruct (Hcnt _ _ Hname') as (ns & Hns & Hc). exists ns.
      split; [|done]. rewrite lookup_insert_ne; [done|]. intros <-. congruence.
Qed.

Lemma consistent_recordEventHub n name c eventHub :
  consistent c →
  namespaceMap c !! name = Some (Some n) →
  eventhubMap c !! eventHub = None →
  consistent (recordEventHub n c eventHub).
Proof.
  intros [Hptr Hcnt] Hname Hfresh. unfold recordEventHub. split; simpl.
  - intros e p. rewrite lookup_insert_Some.
    intros [[_ <-] | [_ He]]; [by exists n, name | by apply (Hptr e)].
  - intros name' n' Hname'.
    destruct (Hcnt name' n' Hname') as (ns' & Hn' & Hc').
    rewrite pointing_insert, (delete_id _ _ Hfresh).
    unfold setCount. rewrite lookup_alter.
    destruct (decide (n = n')) as [<-|Hne].
    + rewrite Hn'. simpl. eexists. split; [done|]. simpl.
      rewrite decide_True by done. unfold getCount. rewrite Hn'. simpl. lia.
    + exists ns'. split; [done|].
      rewrite decide_False; [done | congruence].
Qed.

Lemma consistent_foldl_recordEventHub n name eventHubs c :
  consistent c →
  namespaceMap c !! name = Some (Some n) →
  NoDup eventHubs →
  (∀ eventHub, eventHub ∈ eventHubs → eventhubMap c !! eventHub = None) →
  consistent (foldl (recordEventHub n) c eventHubs).
Proof.
  revert c. induction eventHubs as [|hub rest IH]; intros c Hc Hname Hnodup Hfresh;
    [done|].
  apply NoDup_cons in Hnodup as [Hhub Hrest]. simpl. apply IH; try done.
  - apply (consistent_recordEventHub _ name); [done | done |].
    apply Hfresh. by left.
  - intros eventHub Hin. simpl. rewrite lookup_insert_ne.
    + apply Hfresh. by right.
    + by intros <-.
Qed.

Lemma updateFromSecrets_consistent env kafkaSecrets c :
  consistent c →
  NoDup (namespaceNameOf <$> kafkaSecrets) →
  (∀ secret, secret ∈ kafkaSecrets →
             namespaceMap c !! namespaceNameOf secret = None) →
  NoDup (kafkaSecrets ≫= listingOf env) →
  (∀ secret eventHub, secret ∈ kafkaSecrets → eventHub ∈ listingOf env secret →
                      eventhubMap c !! eventHub = None) →
  consistent (updateFromSecrets env kafkaSecrets c).1.
Proof.
  revert c.
  induction kafkaSecrets as [|kafkaSecret rest IH];
    intros c Hc Hnames Hnew Hhubs Hfresh; [done|].
  rewrite fmap_cons in Hnames. apply NoDup_cons in Hnames as [Hname Hnames].
  rewrite bind_cons in Hhubs. apply NoDup_app in Hhubs as (Hlisting & Hapart & Hhubs).
  assert (Hstored : consistent
            (storeNamespace (NewNamespaceFromKafkaSecret kafkaSecret) c).2).
  { apply consistent_storeNamespace; [done | | done]. apply Hnew. by left. }
  destruct (validateKafkaSecret kafkaSecret) eqn:Hvalid;
    [| simpl; by rewrite Hvalid].
  destruct (HubManagerList env kafkaSecret) as [err|eventHubs] eqn:Hlist;
    [simpl; by rewrite Hvalid, Hlist|].
  assert (Heq : listingOf env kafkaSecret = eventHubs)
    by (unfold listingOf; by rewrite Hlist).
  rewrite Heq in Hlisting, Hapart.
  rewrite (updateFromSecrets_cons_ok _ _ _ eventHubs) by done.
  destruct (recordNamespace_spec (NewNamespaceFromKafkaSecret kafkaSecret)
              eventHubs c) as (_ & _ & Hns & Hmap).
  apply IH; try done.
  - unfold recordNamespace, storeNamespace in *.
    apply (consistent_foldl_recordEventHub _ (namespaceNameOf kafkaSecret));
      [done | apply lookup_insert_eq | done |].
    intros eventHub Hin. simpl. apply (Hfresh kafkaSecret); [by left|].
    by rewrite Heq.
  - intros secret Hin. rewrite Hns, lookup_insert_ne.
    + apply Hnew. by right.
    + simpl. intros Heqname. apply Hname. unfold namespaceNameOf in *.
      rewrite Heqname. by apply (list_elem_of_fmap_2 (λ s, dataField s _)).
  - intros secret eventHub Hin Hhub. rewrite Hmap, decide_False.
    + apply (Hfresh secret); [by right | done].
    + intros Hboth. apply (Hapart _ Hboth), list_elem_of_bind. eauto.
Qed.

(** X10. [Update] establishes the invariant of the cache, and keeps it. Starting
    from a cache that satisfies it (the empty cache of [NewCache] does), when
    the fetched secrets carry pairwise different namespace names, none of them
    already in the namespace map, and their listings return pairwise
    different EventHub names, none of them already in the EventHub map, the
    cache that [Update] leaves satisfies the invariant, whether [Update]
    returns an error or not: every EventHub points to a namespace of the
    namespace map, and every namespace counts the EventHubs that point to
    it. *)
Theorem Update_consistent (env : Env) (c : Cache) (kafkaSecrets : list Secret) :
  consistent c →
  GetKafkaSecrets env = inr kafkaSecrets →
  NoDup (namespaceNameOf <$> kafkaSecrets) →
  (∀ secret, secret ∈ kafkaSecrets →
             namespaceMap c !! namespaceNameOf secret = None) →
  NoDup (kafkaSecrets ≫= listingOf env) →
  (∀ secret eventHub, secret ∈ kafkaSecrets → eventHub ∈ listingOf env secret →
                      eventhubMap c !! eventHub = None) →
  consistent (Update env c).1.
Proof.
  intros Hc Hfetch Hnames Hnew Hhubs Hfresh. unfold Update. rewrite Hfetch.
  by apply updateFromSecrets_consistent.
Qed.

End Cache.

(* --------------------------------------------------------------------- *)
(** ** Worked examples *)

(** The capacity and the keys of a secret used in the examples. *)
Definition exampleCapacity : Z := 10.

Definition exampleUpdate : Env → Cache → Cache * option Error :=
  Update "brokers" "username" "password" "namespace".

(** From a lookup in a map that is written out, the entries it can be. *)
Ltac entries H :=
  apply elem_of_map_to_list in H;
  match type of H with
  | _ ∈ ?l => let l' := eval vm_compute in l in change l with l' in H
  end;
  repeat (apply elem_of_cons in H as [H|H]);
  [.. | by apply elem_of_nil in H]; simplify_eq.

(** A secret with all four fields, whose namespace lists one EventHub, and a
    secret with no field at all. *)
Definition goodSecret : Secret :=
  {| SecretName := "secret1";
     Data := {[ "brokers" := "broker:9093"; "username" := "user";
                "password" := "pass"; "namespace" := "ns1" ]}%string |}.

Definition emptySecret : Secret := {| SecretName := "secret2"; Data := ∅ |}.

Definition exampleEnv : Env :=
  {| GetKafkaSecrets := inr [goodSecret; emptySecret];
     HubManagerList := λ secret,
       if String.eqb (SecretName secret) "secret1"
       then inr ["topic1"%string] else inl "listing refused"%string |}.

(** C1 does not hold as stated: on the secrets [goodSecret; emptySecret]
    [Update] returns the validation error of the second secret after the first
    has been applied, so both maps of the cache have changed. *)
Lemma Update_applies_in_part :
  (exampleUpdate exampleEnv NewCache).2 = Some "invalid Kafka Secret found"%string
  ∧ namespaceMap (exampleUpdate exampleEnv NewCache).1 ≠ namespaceMap NewCache
  ∧ eventhubMap (exampleUpdate exampleEnv NewCache).1 ≠ eventhubMap NewCache.
Proof.
  split; [by vm_compute|]. split.
  - intros Heq. apply (f_equal (λ m, m !! "ns1"%string)) in Heq.
    vm_compute in Heq. discriminate.
  - intros Heq. apply (f_equal (λ m, m !! "topic1"%string)) in Heq.
    vm_compute in Heq. discriminate.
Qed.

Lemma Update_error_state_example :
  exampleUpdate exampleEnv NewCache
  = ((exampleUpdate {| GetKafkaSecrets := inr [goodSecret];
                       HubManagerList := HubManagerList exampleEnv |} NewCache).1,
     Some "invalid Kafka Secret found"%string)
  ∧ errorState "brokers" "username" "password" "namespace" exampleEnv NewCache
      (exampleUpdate exampleEnv NewCache).1 "invalid Kafka Secret found".
Proof.
  split; [by vm_compute|].
  apply Update_error_state. by vm_compute.
Defined.

(** The namespaces of the example of the specification: A holds three
    EventHubs, B one, and C is full. *)
Definition cacheABC : Cache :=
  {| store := {[ 0%nat := {| Name := "A"; Count := 3 |};
                 1%nat := {| Name := "B"; Count := 1 |};
                 2%nat := {| Name := "C"; Count := 10 |} ]};
     namespaceMap := {[ "A"%string := Some 0%nat; "B"%string := Some 1%nat;
                        "C"%string := Some 2%nat ]};
     eventhubMap := ∅ |}.

Example cacheABC_bounded : countsBounded exampleCapacity cacheABC.
Proof.
  intros name n Hname. entries Hname; eexists; (split; [by vm_compute|]);
    simpl; unfold exampleCapacity; lia.
Qed.

Lemma GetNamespaceWithMaxCapacity_example :
  countsBounded exampleCapacity cacheABC
  ∧ GetNamespaceWithMaxCapacity exampleCapacity cacheABC = Some 1%nat
  ∧ getCount (store cacheABC) 1 < exampleCapacity
  ∧ ∀ name' n', namespaceMap cacheABC !! name' = Some (Some n') →
      getCount (store cacheABC) n' < exampleCapacity →
      getCount (store cacheABC) 1 ≤ getCount (store cacheABC) n'.
Proof.
  split; [exact cacheABC_bounded|]. split; [by vm_compute|].
  destruct (GetNamespaceWithMaxCapacity_correct exampleCapacity cacheABC
              (map_to_list (namespaceMap cacheABC))
              (reflexivity _) cacheABC_bounded) as [Hsome _].
  destruct (Hsome 1%nat) as (_ & Hroom & Hleast); [by vm_compute|].
  split; [exact Hroom | exact Hleast].
Defined.

(** A cache with one namespace that holds one EventHub. *)
Definition cacheOne : Cache :=
  {| store := {[ 0%nat := {| Name := "ns1"; Count := 1 |} ]};
     namespaceMap := {[ "ns1"%string := Some 0%nat ]};
     eventhubMap := {[ "topic1"%string := Some 0%nat ]} |}.

Example cacheOne_consistent : consistent cacheOne.
Proof.
  split.
  - intros eventhub p Hp. entries Hp. by exists 0%nat, "ns1"%string.
  - intros name n Hname. entries Hname. eexists. split; by vm_compute.
Qed.

Example cacheOne_bounded : countsBounded exampleCapacity cacheOne.
Proof.
  intros name n Hname. entries Hname. eexists. split; [by vm_compute|].
  simpl. unfold exampleCapacity. lia.
Qed.

(** C4 does not hold as stated: adding an EventHub that the EventHub map
    already holds raises the count of its namespace to two while one entry
    points to it. *)
Lemma AddEventHub_twice_breaks_consistent :
  consistent cacheOne
  ∧ ¬ consistent (run exampleCapacity [CallAddEventHub "topic1" (Some 0%nat)] cacheOne).
Proof.
  split; [exact cacheOne_consistent|]. intros [_ Hcnt].
  destruct (Hcnt "ns1"%string 0%nat) as (ns & Hns & Hc); [by vm_compute|].
  clear Hcnt. vm_compute in Hns. injection Hns as <-.
  vm_compute in Hc. discriminate.
Qed.

(** A run that adds a second EventHub, removes both and removes one that was
    never there. *)
Definition exampleCalls : list Call :=
  [ CallAddEventHub "topic2" (Some 0%nat);
    CallRemoveEventHub "topic1";
    CallRemoveEventHub "never added";
    CallAddEventHub "topic3" None;
    CallRemoveEventHub "topic2" ].

Lemma consistent_preserved_example :
  consistent cacheOne
  ∧ admissibleRun exampleCapacity exampleCalls cacheOne
  ∧ consistent (run exampleCapacity exampleCalls cacheOne).
Proof.
  assert (Hrun : admissibleRun exampleCapacity exampleCalls cacheOne).
  { unfold exampleCalls.
    split; [right; split; [by vm_compute | by exists 0%nat, "ns1"%string]|].
    do 2 (split; [exact I|]).
    split; [by left|]. by split. }
  split; [exact cacheOne_consistent|]. split; [exact Hrun|].
  exact (consistent_preserved exampleCapacity exampleCalls cacheOne
           cacheOne_consistent Hrun).
Defined.

(** A run against the capacity and against zero: a namespace that is full is
    offered one more EventHub, and more EventHubs are removed than were
    added. *)
Lemma counts_stay_bounded_example :
  countsBounded exampleCapacity cacheABC
  ∧ countsBounded exampleCapacity
      (run exampleCapacity
         [ CallAddEventHub "topic1" (Some 2%nat);
           CallAddEventHub "topic2" (Some 1%nat);
           CallRemoveEventHub "topic2"; CallRemoveEventHub "topic2";
           CallRemoveEventHub "topic1" ] cacheABC).
Proof.
  split; [exact cacheABC_bounded|].
  exact (counts_stay_bounded exampleCapacity _ cacheABC cacheABC_bounded).
Defined.


(** Removing the one EventHub of [cacheOne] twice, and removing one that
    was never added. *)
Lemma RemoveEventHub_idempotent_example :
  getCount (store (RemoveEventHub "topic1" cacheOne)) 0 = 0
  ∧ eventhubMap (RemoveEventHub "topic1" cacheOne) !! "topic1"%string = None
  ∧ RemoveEventHub "topic1" (RemoveEventHub "topic1" cacheOne)
    = RemoveEventHub "topic1" cacheOne
  ∧ store (RemoveEventHub "never added" cacheOne) = store cacheOne.
Proof.
  destruct (RemoveEventHub_idempotent cacheOne "topic1")
    as (Hcount & Hgone & _ & _ & Hagain & _).
  destruct (RemoveEventHub_idempotent cacheOne "never added")
    as (_ & _ & _ & _ & _ & Hnever).
  split; [by rewrite Hcount|]. split; [exact Hgone|]. split; [exact Hagain|].
  apply Hnever. reflexivity.
Defined.

(** A second valid secret, and an outside world in which both secrets are
    fetched and both listings succeed; the EventHub "shared" is listed by
    both namespaces. *)
Definition secondSecret : Secret :=
  {| SecretName := "secret3";
     Data := {[ "brokers" := "broker2:9093"; "username" := "user2";
                "password" := "pass2"; "namespace" := "ns2" ]}%string |}.

Definition twoSecretsEnv : Env :=
  {| GetKafkaSecrets := inr [goodSecret; secondSecret];
     HubManagerList := λ secret,
       if String.eqb (SecretName secret) "secret1"
       then inr ["topic1"; "shared"]%string
       else inr ["shared"; "topic2"]%string |}.

(** The EventHub that both namespaces list ends with the later one. *)
Example Update_twoSecrets_shared :
  (exampleUpdate twoSecretsEnv NewCache).2 = None
  ∧ GetNamespace (exampleUpdate twoSecretsEnv NewCache).1 "shared"
    = GetNamespace (exampleUpdate twoSecretsEnv NewCache).1 "topic2"
  ∧ GetNamespace (exampleUpdate twoSecretsEnv NewCache).1 "shared"
    ≠ GetNamespace (exampleUpdate twoSecretsEnv NewCache).1 "topic1".
Proof.
  split; [by vm_compute|]. split; [by vm_compute|].
  intros Heq. vm_compute in Heq. discriminate.
Qed.

Lemma Update_reverse_index_example :
  exampleUpdate twoSecretsEnv NewCache
  = ((exampleUpdate twoSecretsEnv NewCache).1, None)
  ∧ ∃ n,
      store (exampleUpdate twoSecretsEnv NewCache).1 !! n
      = Some {| Name := "ns1"; Count := 2 |}
      ∧ namespaceMap (exampleUpdate twoSecretsEnv NewCache).1 !! "ns1"%string
        = Some (Some n)
      ∧ GetNamespace (exampleUpdate twoSecretsEnv NewCache).1 "topic1" = Some n.
Proof.
  assert (Hupdate : exampleUpdate twoSecretsEnv NewCache
                    = ((exampleUpdate twoSecretsEnv NewCache).1, None))
    by (by vm_compute).
  split; [exact Hupdate|].
  destruct (Update_reverse_index "brokers" "username" "password" "namespace"
              twoSecretsEnv NewCache (exampleUpdate twoSecretsEnv NewCache).1
              [] goodSecret [secondSecret] eq_refl Hupdate)
    as (n & _ & Hstore & Hname & Hhub).
  exists n. split; [exact Hstore|]. split.
  - apply Hname. intros Hin. apply list_elem_of_singleton in Hin.
    vm_compute in Hin. discriminate.
  - apply Hhub.
    + vm_compute. left.
    + intros secret Hsecret. apply list_elem_of_singleton in Hsecret. subst secret.
      vm_compute. intros Hin.
      repeat (apply elem_of_cons in Hin as [Hin|Hin]; [discriminate|]).
      by apply elem_of_nil in Hin.
Defined.

Lemma Update_keeps_entries_example :
  store cacheABC ⊆ store (exampleUpdate exampleEnv cacheABC).1
  ∧ namespaceMap (exampleUpdate exampleEnv cacheABC).1 !! "A"%string
    = namespaceMap cacheABC !! "A"%string.
Proof.
  destruct (Update_keeps_entries "brokers" "username" "password" "namespace"
              exampleEnv cacheABC) as (Hstore & _ & _ & Hframe).
  destruct (Hframe [goodSecret; emptySecret] eq_refl) as [Hname _].
  split; [exact Hstore|]. apply Hname.
  vm_compute. intros Hin.
  repeat (apply elem_of_cons in Hin as [Hin|Hin]; [discriminate|]).
  by apply elem_of_nil in Hin.
Defined.

Lemma AddEventHub_GetNamespace_example :
  GetNamespace (AddEventHub exampleCapacity "topic9" (Some 1%nat) cacheABC) "topic9"
  = Some 1%nat
  ∧ getCount (store (AddEventHub exampleCapacity "topic9" (Some 1%nat) cacheABC)) 1 = 2
  ∧ AddEventHub exampleCapacity "topic9" (Some 2%nat) cacheABC = cacheABC.
Proof.
  destruct (AddEventHub_GetNamespace exampleCapacity "topic9" (Some 1%nat) cacheABC)
    as [Haccepted _].
  destruct (AddEventHub_GetNamespace exampleCapacity "topic9" (Some 2%nat) cacheABC)
    as [_ Hrefused].
  destruct (Haccepted 1%nat eq_refl) as (Hget & _ & Hcount & _); [by vm_compute|].
  split; [exact Hget|]. split.
  - rewrite Hcount; [by vm_compute | eexists; reflexivity].
  - apply Hrefused. right. exists 2%nat. split; [done | by vm_compute].
Defined.

Lemma RemoveEventHub_AddEventHub_example :
  eventhubMap cacheABC !! "topic9"%string = None
  ∧ store cacheABC !! 1%nat = Some {| Name := "B"; Count := 1 |}
  ∧ RemoveEventHub "topic9"
      (AddEventHub exampleCapacity "topic9" (Some 1%nat) cacheABC)
    = cacheABC.
Proof.
  assert (Hfresh : eventhubMap cacheABC !! "topic9"%string = None) by reflexivity.
  assert (Hn : store cacheABC !! 1%nat = Some {| Name := "B"; Count := 1 |})
    by reflexivity.
  split; [exact Hfresh|]. split; [exact Hn|].
  apply (RemoveEventHub_AddEventHub exampleCapacity "topic9" 1 _ cacheABC Hfresh Hn).
  simpl. unfold exampleCapacity. lia.
Defined.

Lemma GetNamespaceWithMaxCapacity_then_AddEventHub_example :
  GetNamespaceWithMaxCapacity exampleCapacity cacheABC = Some 1%nat
  ∧ getCount (store cacheABC) 1 < exampleCapacity
  ∧ GetNamespace (AddEventHub exampleCapacity "topic9" (Some 1%nat) cacheABC) "topic9"
    = Some 1%nat.
Proof.
  assert (Hselect : GetNamespaceWithMaxCapacity exampleCapacity cacheABC = Some 1%nat)
    by (by vm_compute).
  split; [exact Hselect|].
  destruct (GetNamespaceWithMaxCapacity_then_AddEventHub exampleCapacity cacheABC
              (map_to_list (namespaceMap cacheABC)) 1 "topic9"
              (reflexivity _) Hselect) as (_ & Hroom & Hget).
  split; [exact Hroom | exact Hget].
Defined.

Lemma logged_names_shape_example :
  getNamespaceNamesIn (map_to_list (namespaceMap cacheOne)) cacheOne
  = Some [""; "ns1 (1)"]%string
  ∧ getEventHubNamesIn (map_to_list (eventhubMap cacheOne)) cacheOne
    = Some [""; "topic1 -> ns1"]%string
  ∧ ∃ names,
      getNamespaceNamesIn (map_to_list (namespaceMap cacheOne)) cacheOne = Some names
      ∧ length names = (2 * size (namespaceMap cacheOne))%nat.
Proof.
  split; [by vm_compute|]. split; [by vm_compute|].
  destruct (logged_names_shape cacheOne (map_to_list (namespaceMap cacheOne))
              (map_to_list (eventhubMap cacheOne)) (reflexivity _) (reflexivity _))
    as (Hnames & _).
  destruct Hnames as (names & Hsome & Hlen & _).
  - intros name Hname. entries Hname.
  - exists names. by split.
Defined.

Definition exampleUpdateIn
  : list (string * option nat) → list (string * option nat) → Env → Cache
    → Cache * Outcome :=
  UpdateIn "brokers" "username" "password" "namespace".

(** The cache that the loop of [Update] leaves from the empty cache when both
    secrets apply. *)
Definition updatedCache : Cache := (exampleUpdate twoSecretsEnv NewCache).1.

Lemma Update_succeeds_iff_example :
  rangeOrder (namespaceMap updatedCache) (map_to_list (namespaceMap updatedCache))
  ∧ rangeOrder (eventhubMap updatedCache) (map_to_list (eventhubMap updatedCache))
  ∧ (exampleUpdateIn (map_to_list (namespaceMap updatedCache))
       (map_to_list (eventhubMap updatedCache)) twoSecretsEnv NewCache).2
    = Returned None.
Proof.
  assert (Hnamespaces : rangeOrder (namespaceMap updatedCache)
                          (map_to_list (namespaceMap updatedCache)))
    by exact (reflexivity _).
  assert (Heventhubs : rangeOrder (eventhubMap updatedCache)
                         (map_to_list (eventhubMap updatedCache)))
    by exact (reflexivity _).
  split; [exact Hnamespaces|]. split; [exact Heventhubs|].
  destruct (Update_succeeds_iff "brokers" "username" "password" "namespace"
              twoSecretsEnv NewCache _ _ Hnamespaces Heventhubs) as (Hreturned & _).
  apply Hreturned. exists [goodSecret; secondSecret].
  split; [split; [reflexivity|] | split].
  - apply Forall_cons. split; [split; [by vm_compute | by eexists]|].
    apply Forall_cons. split; [split; [by vm_compute | by eexists]|].
    apply Forall_nil_2.
  - intros name Hname. simpl in Hname. by rewrite lookup_empty in Hname.
  - intros eventHub Hhub. simpl in Hhub. by rewrite lookup_empty in Hhub.
Defined.

(** A cache with a nil pointer in its namespace map, under a name that no
    secret carries: the loop of [Update] returns no error, and the closing
    log statement panics. When a secret carries the name, the nil pointer is
    overwritten and [Update] returns nil. *)
Definition cacheWithNil (name : string) : Cache :=
  {| store := ∅; namespaceMap := {[ name := None ]}; eventhubMap := ∅ |}.

Example Update_panics_on_nil_entry :
  (exampleUpdate twoSecretsEnv (cacheWithNil "old")).2 = None
  ∧ (exampleUpdateIn
       (map_to_list (namespaceMap (exampleUpdate twoSecretsEnv (cacheWithNil "old")).1))
       (map_to_list (eventhubMap (exampleUpdate twoSecretsEnv (cacheWithNil "old")).1))
       twoSecretsEnv (cacheWithNil "old")).2
    = Panicked
  ∧ (exampleUpdateIn
       (map_to_list (namespaceMap (exampleUpdate twoSecretsEnv (cacheWithNil "ns1")).1))
       (map_to_list (eventhubMap (exampleUpdate twoSecretsEnv (cacheWithNil "ns1")).1))
       twoSecretsEnv (cacheWithNil "ns1")).2
    = Returned None.
Proof. split; [by vm_compute|]. split; by vm_compute. Qed.

(** An [Update] that stops at a refused listing has stored the namespace of
    the secret it stops at, with no EventHub, next to what the secret before
    it contributed. *)
Definition refusedEnv : Env :=
  {| GetKafkaSecrets := inr [goodSecret; secondSecret];
     HubManagerList := HubManagerList exampleEnv |}.

Example Update_listing_refused_stores_namespace :
  (exampleUpdate refusedEnv NewCache).2 = Some "listing refused"%string
  ∧ namespaceMap (exampleUpdate refusedEnv NewCache).1
    = {[ "ns1" := Some 0%nat; "ns2" := Some 1%nat ]}%string
  ∧ eventhubMap (exampleUpdate refusedEnv NewCache).1
    = {[ "topic1"%string := Some 0%nat ]}
  ∧ store (exampleUpdate refusedEnv NewCache).1
    = {[ 0%nat := {| Name := "ns1"; Count := 1 |};
         1%nat := {| Name := "ns2"; Count := 0 |} ]}.
Proof. repeat split; by vm_compute. Qed.

(** An outside world in which the two namespaces list different EventHubs. *)
Definition disjointEnv : Env :=
  {| GetKafkaSecrets := inr [goodSecret; secondSecret];
     HubManagerList := λ secret,
       if String.eqb (SecretName secret) "secret1"
       then inr ["topic1"; "topic3"]%string
       else inr ["topic2"]%string |}.

Example NewCache_consistent : consistent NewCache.
Proof.
  split; simpl.
  - intros eventhub p Hp. by rewrite lookup_empty in Hp.
  - intros name n Hname. by rewrite lookup_empty in Hname.
Qed.

Lemma Update_consistent_example :
  consistent NewCache
  ∧ (exampleUpdate disjointEnv NewCache).2 = None
  ∧ consistent (exampleUpdate disjointEnv NewCache).1.
Proof.
  split; [exact NewCache_consistent|]. split; [by vm_compute|].
  apply (Update_consistent "brokers" "username" "password" "namespace"
           disjointEnv NewCache [goodSecret; secondSecret]
           NewCache_consistent eq_refl).
  - apply (bool_decide_unpack _). by vm_compute.
  - intros secret _. apply lookup_empty.
  - apply (bool_decide_unpack _). by vm_compute.
  - intros secret eventHub _ _. apply lookup_empty.
Defined.

End EventHubCache.

(* ===================================================================== *)
(** * Part II: the KafkaChannel reconciler of the dispatcher *)
(* ===================================================================== *)

Module Controller.

(** [corev1.ConditionStatus]. *)
Inductive ConditionStatus := ConditionTrue | ConditionFalse | ConditionUnknown.

#[global] Instance ConditionStatus_eq_dec : EqDecision ConditionStatus.
Proof. solve_decision. Defined.

(** The event reasons of the reconciler. *)
Definition channelReconciled : string := "ChannelReconciled".
Definition channelReconcileFailed : string := "ChannelReconcileFailed".
Definition channelUpdateStatusFailed : string := "ChannelUpdateStatusFailed".

Section Reconciler.

(** [U] is the type of a subscriber's URI field, in the code a [*apis.URL]:
    a value of [U] is the address of a URL (or nil), and equality on [U] is
    Go's [==] on pointers, which compares addresses and not the URLs they
    refer to. [R] is the part of a channel's status that the reconciler
    copies and compares but does not look into (conditions, address), with
    [reflect.DeepEqual] on it. *)
Context {U : Type} `{Countable U}.
Context {R : Type} `{EqDecision R}.

(** Modelled from the spec: the struct [dispatcher.Subscription] is declared
    in the package dispatcher, which is not among the sources. It has the two
    attributes the spec lists, destination URI and consumer-group identifier,
    which are the two fields the composite literals of kafkachannel.go set. A
    Go struct used as a map key is compared field by field. *)
Record Subscription := mkSubscription {
  URI : U;
  GroupId : string
}.

#[global] Instance Subscription_eq_dec : EqDecision Subscription.
Proof using Type*. solve_decision. Defined.

#[global] Instance Subscription_countable : Countable Subscription.
Proof using Type*.
  refine (inj_countable' (λ s, (URI s, GroupId s))
                         (λ p, {| URI := p.1; GroupId := p.2 |}) _).
  by intros [].
Defined.

(** [eventingduck.SubscriberSpec], the fields the reconciler reads. *)
Record SubscriberSpec := mkSubscriberSpec {
  UID : string;
  Generation : Z;
  SubscriberURI : U
}.

(** [eventingduck.SubscriberStatus] (its [UID] field is [StatusUID] here). *)
Record SubscriberStatus := mkSubscriberStatus {
  StatusUID : string;
  ObservedGeneration : Z;
  Ready : ConditionStatus;
  Message : string
}.

#[global] Instance SubscriberStatus_eq_dec : EqDecision SubscriberStatus.
Proof using Type*. solve_decision. Defined.

(** [eventingduck.SubscribableSpec] and [eventingduck.SubscribableStatus]. A
    slice is [None] when it is nil and [Some l] otherwise: the code tests a
    slice against nil, and [reflect.DeepEqual] tells the nil slice from the
    empty one. *)
Record SubscribableSpec := mkSubscribableSpec {
  Subscribers : option (list SubscriberSpec)
}.

Record SubscribableStatus := mkSubscribableStatus {
  StatusSubscribers : option (list SubscriberStatus)
}.

#[global] Instance SubscribableStatus_eq_dec : EqDecision SubscribableStatus.
Proof using Type*. solve_decision. Defined.

(** [KafkaChannelStatus]: the subscribable block and the rest. *)
Record KafkaChannelStatus := mkKafkaChannelStatus {
  StatusRest : R;
  SubscribableStatusOf : SubscribableStatus
}.

#[global] Instance KafkaChannelStatus_eq_dec : EqDecision KafkaChannelStatus.
Proof using Type*. solve_decision. Defined.

(** [KafkaChannel]: its namespace and name, the subscribable block of its
    spec, and its status. *)
Record KafkaChannel := mkKafkaChannel {
  Namespace : string;
  Name : string;
  Spec : SubscribableSpec;
  Status : KafkaChannelStatus
}.

(** The answer of [kafkachannelLister.KafkaChannels(namespace).Get(name)]:
    the channel, an error for which [apierrs.IsNotFound] holds, or another
    error. *)
Inductive GetResult :=
  | Found (kc : KafkaChannel)
  | NotFound (err : Error)
  | GetFailed (err : Error).

(** What a reconcile does to its collaborators, in the order it does it. *)
Inductive Effect :=
  | ListerGet (namespace name : string)
  | DispatcherUpdateSubscriptions (subscriptions : list Subscription)
  | ClientUpdateStatus (kc : KafkaChannel)
  | RecorderEvent (eventtype reason message : string).

(** The collaborators of the reconciler, none of which is among the sources:
    [cache.SplitMetaNamespaceKey] of client-go, the informer's lister, the
    status condition test [Status.IsReady], the dispatcher with its state
    [D], its [ChannelKey] and its [UpdateSubscriptions], and the clientset's
    [UpdateStatus]. *)
Context {D : Type}.
Variable SplitMetaNamespaceKey : string → Error + string * string.
Variable lister : string → string → GetResult.
Variable IsReady : KafkaChannelStatus → bool.
Variable ChannelKey : D → string.
Variable UpdateSubscriptions :
  D → list Subscription → gmap Subscription Error * D.
Variable UpdateStatus : KafkaChannel → Error + KafkaChannel.

(** The address at which a deep copy puts its copy of the URL at a given
    address (nil for nil); for a URL that is live it is an address that was
    not in use. *)
Variable copyURL : U → U.

(** The state a reconcile runs in: the dispatcher, and the effects so far. *)
Record World := mkWorld {
  dispatcher : D;
  effects : list Effect
}.

Definition perform (e : Effect) (w : World) : World :=
  {| dispatcher := dispatcher w; effects := effects w ++ [e] |}.

(** The status writes among some effects. *)
Definition statusWrites (es : list Effect) : list KafkaChannel :=
  omap (λ e, match e with ClientUpdateStatus kc => Some kc | _ => None end) es.

(** [dispatcher.Subscription{URI: sub.SubscriberURI, GroupId: groupId}] with
    [groupId := fmt.Sprintf("kafka.%s", sub.UID)], as both [reconcile] and
    [createSubscribableStatus] build it. *)
Definition groupIdOf (subscriber : SubscriberSpec) : string :=
  String.append "kafka." (UID subscriber).

Definition subscriptionOf (subscriber : SubscriberSpec) : Subscription :=
  {| URI := SubscriberURI subscriber; GroupId := groupIdOf subscriber |}.

(** The body of the loop of [createSubscribableStatus]. The failure mapping
    holds the errors of the subscriptions that failed, none of them nil. *)
Definition subscriberStatusOf (failedSubscriptions : gmap Subscription Error)
    (sub : SubscriberSpec) : SubscriberStatus :=
  let status := {| StatusUID := UID sub;
                   ObservedGeneration := Generation sub;
                   Ready := ConditionTrue;
                   Message := "" |} in
  match failedSubscriptions !! subscriptionOf sub with
  | Some err => {| StatusUID := StatusUID status;
                   ObservedGeneration := ObservedGeneration status;
                   Ready := ConditionFalse;
                   Message := err |}
  | None => status
  end.

(** [createSubscribableStatus]: the slice it returns is made, never nil; a
    range over a nil slice runs no iteration. *)
Definition createSubscribableStatus (subscribable : SubscribableSpec)
    (failedSubscriptions : gmap Subscription Error) : SubscribableStatus :=
  {| StatusSubscribers :=
       Some (subscriberStatusOf failedSubscriptions
               <$> default [] (Subscribers subscribable)) |}.

(** [reconcile]: the channel as the call leaves it (the code writes the
    status through the pointer it is given), the error returned, and the
    world. *)
Definition reconcile (channel : KafkaChannel) (w : World)
  : KafkaChannel * option Error * World :=
  match Subscribers (Spec channel) with
  | None => (channel, None, w)
  | Some subscribers =>
      let subscriptions := subscriptionOf <$> subscribers in
      let '(failedSubscriptions, d) :=
        UpdateSubscriptions (dispatcher w) subscriptions in
      let w1 := perform (DispatcherUpdateSubscriptions subscriptions)
                  {| dispatcher := d; effects := effects w |} in
      let channel1 :=
        {| Namespace := Namespace channel; Name := Name channel;
           Spec := Spec channel;
           Status :=
             {| StatusRest := StatusRest (Status channel);
                SubscribableStatusOf :=
                  createSubscribableStatus (Spec channel) failedSubscriptions |} |} in
      if bool_decide (0 < size failedSubscriptions)%nat
      then (channel1, Some "Some kafka subscriptions failed to subscribe"%string, w1)
      else (channel1, None, w1)
  end.

(** [updateStatus]. *)
Definition updateStatus (desired : KafkaChannel) (w : World)
  : option KafkaChannel * option Error * World :=
  let w1 := perform (ListerGet (Namespace desired) (Name desired)) w in
  match lister (Namespace desired) (Name desired) with
  | NotFound err | GetFailed err => (None, Some err, w1)
  | Found kc =>
      if decide (Status kc = Status desired) then (Some kc, None, w1)
      else
        let existing :=
          {| Namespace := Namespace kc; Name := Name kc; Spec := Spec kc;
             Status := Status desired |} in
        let w2 := perform (ClientUpdateStatus existing) w1 in
        match UpdateStatus existing with
        | inl err => (None, Some err, w2)
        | inr new => (Some new, None, w2)
        end
  end.

(** [original.DeepCopy()]. The method is generated code (deepcopy-gen) that
    is not among the sources; it is modelled by what such a copy is: a new
    object with the fields of the original, in which whatever a pointer
    refers to is copied as well. So each subscriber of the copy has the
    identifier and the generation of the original's and, as its URI, the
    address of a copy of the URL; a nil slice is copied to a nil slice, and
    the status, which holds no pointer here, to an equal status. *)
Definition DeepCopy (channel : KafkaChannel) : KafkaChannel :=
  {| Namespace := Namespace channel;
     Name := Name channel;
     Spec :=
       {| Subscribers :=
            fmap (M := list)
              (λ subscriber,
                 {| UID := UID subscriber;
                    Generation := Generation subscriber;
                    SubscriberURI := copyURL (SubscriberURI subscriber) |})
            <$> Subscribers (Spec channel) |};
     Status := Status channel |}.

(** [Reconcile] (logging left out). *)
Definition Reconcile (key : string) (w : World) : option Error * World :=
  match SplitMetaNamespaceKey key with
  | inl _ => (None, w)
  | inr (namespace, name) =>
      let w1 := perform (ListerGet namespace name) w in
      match lister namespace name with
      | NotFound _ => (None, w1)
      | GetFailed err => (Some err, w1)
      | Found original =>
          if negb (String.eqb (ChannelKey (dispatcher w1)) key) then (None, w1)
          else if negb (IsReady (Status original))
          then (Some "Channel is not ready. Cannot configure and update subscriber status"%string, w1)
          else
            let '(channel, reconcileError, w2) :=
              reconcile (DeepCopy original) w1 in
            let w3 :=
              match reconcileError with
              | Some err =>
                  perform (RecorderEvent "Warning" channelReconcileFailed
                             (String.append "KafkaChannel Reconciliation Failed: " err)) w2
              | None =>
                  perform (RecorderEvent "Normal" channelReconciled
                             "KafkaChannel Reconciled") w2
              end in
            let '(_, updateStatusErr, w4) := updateStatus channel w3 in
            match updateStatusErr with
            | Some err =>
                (Some err,
                 perform (RecorderEvent "Warning" channelUpdateStatusFailed
                            (String.append "Failed to update KafkaChannel's status: " err)) w4)
            | None => (None, w4)
            end
      end
  end.

(* --------------------------------------------------------------------- *)
(** ** Subscriptions as map keys *)

Lemma subscriptionOf_eq s1 s2 :
  subscriptionOf s1 = subscriptionOf s2
  ↔ SubscriberURI s1 = SubscriberURI s2 ∧ groupIdOf s1 = groupIdOf s2.
Proof.
  unfold subscriptionOf. split.
  - intros Heq. split; [exact (f_equal URI Heq) | exact (f_equal GroupId Heq)].
  - by intros [-> ->].
Qed.

(** C3, as the code has it. Two subscribers with the same unique identifier
    give Subscriptions with the same consumer-group identifier, of the form
    kafka.<uid>. The Subscriptions are nevertheless two map keys when the
    destination URIs differ, because the key holds the subscriber's URI
    pointer as well: then an entry stored in the failure mapping under one is
    not found under the other, nor does it change what is found there, and
    the other subscriber is reported ready. ([urlOf] gives the URL that a
    pointer refers to; two pointers to different URLs are different
    pointers. The two Subscriptions are one key exactly when the pointer is
    the same.) *)
Theorem same_uid_subscriptions (urlOf : U → string) (s1 s2 : SubscriberSpec) :
  UID s1 = UID s2 →
  GroupId (subscriptionOf s1) = String.append "kafka." (UID s1)
  ∧ GroupId (subscriptionOf s1) = GroupId (subscriptionOf s2)
  ∧ (urlOf (SubscriberURI s1) ≠ urlOf (SubscriberURI s2) →
     subscriptionOf s1 ≠ subscriptionOf s2
     ∧ ∀ (failedSubscriptions : gmap Subscription Error) (err : Error),
         <[subscriptionOf s1 := err]> failedSubscriptions !! subscriptionOf s2
         = failedSubscriptions !! subscriptionOf s2
         ∧ ({[ subscriptionOf s1 := err ]} : gmap Subscription Error)
           !! subscriptionOf s2 = None
         ∧ Ready (subscriberStatusOf {[ subscriptionOf s1 := err ]} s2)
           = ConditionTrue)
  ∧ (subscriptionOf s1 = subscriptionOf s2 ↔ SubscriberURI s1 = SubscriberURI s2).
Proof.
  intros Huid.
  assert (Hgroup : groupIdOf s1 = groupIdOf s2) by (unfold groupIdOf; by rewrite Huid).
  split; [done|]. split; [done|]. split.
  - intros Hurl.
    assert (Hsub : subscriptionOf s1 ≠ subscriptionOf s2).
    { rewrite subscriptionOf_eq. intros [Hptr _]. apply Hurl. by rewrite Hptr. }
    split; [done|]. intros failedSubscriptions err.
    split; [by apply lookup_insert_ne|]. unfold subscriberStatusOf.
    by rewrite lookup_singleton_ne.
  - rewrite subscriptionOf_eq. split; [by intros [? _] | by intros ?].
Qed.

(* --------------------------------------------------------------------- *)
(** ** [createSubscribableStatus] *)

(** C8. The status block computed from the declared subscribers and the
    failure mapping of the dispatcher has one entry per declared subscriber,
    in the order declared, carrying the subscriber's identifier and
    generation; the entry is ready with no message when the subscriber's
    Subscription is not a key of the failure mapping, and not ready with the
    message of the error stored under that key when it is. *)
Theorem createSubscribableStatus_entries
    (subscribable : SubscribableSpec)
    (failedSubscriptions : gmap Subscription Error) :
  ∃ statuses,
    StatusSubscribers (createSubscribableStatus subscribable failedSubscriptions)
    = Some statuses
    ∧ length statuses = length (default [] (Subscribers subscribable))
    ∧ ∀ (i : nat) sub,
        default [] (Subscribers subscribable) !! i = Some sub →
        ∃ status,
          statuses !! i = Some status
          ∧ StatusUID status = UID sub
          ∧ ObservedGeneration status = Generation sub
          ∧ match failedSubscriptions !! subscriptionOf sub with
            | None => Ready status = ConditionTrue ∧ Message status = ""%string
            | Some err => Ready status = ConditionFalse ∧ Message status = err
            end.
Proof.
  eexists. split; [done|]. split; [by rewrite length_fmap|].
  intros i sub Hsub. exists (subscriberStatusOf failedSubscriptions sub).
  split; [by rewrite list_lookup_fmap, Hsub|].
  unfold subscriberStatusOf.
  by destruct (failedSubscriptions !! subscriptionOf sub).
Qed.

(* --------------------------------------------------------------------- *)
(** ** [reconcile] *)

(** C6, as the code has it. A channel whose subscriber list is nil is
    reconciled with success, without a call of the dispatcher and without a
    change to the channel. A channel whose subscriber list is empty but not
    nil has the dispatcher called once, with no subscription, and its
    reconcile succeeds exactly when the dispatcher reports no failure. *)
Theorem reconcile_no_subscribers (channel : KafkaChannel) (w : World) :
  (Subscribers (Spec channel) = None →
   reconcile channel w = (channel, None, w))
  ∧ (Subscribers (Spec channel) = Some [] →
     effects (reconcile channel w).2
     = effects w ++ [DispatcherUpdateSubscriptions []]
     ∧ dispatcher (reconcile channel w).2
       = (UpdateSubscriptions (dispatcher w) []).2
     ∧ ((reconcile channel w).1.2 = None
        ↔ (UpdateSubscriptions (dispatcher w) []).1 = ∅)).
Proof.
  unfold reconcile. split; intros ->; [done|]. simpl.
  destruct (UpdateSubscriptions (dispatcher w) []) as [failed d]. simpl.
  case_bool_decide as Hsize; simpl.
  - repeat split; try done. intros ->. rewrite map_size_empty in Hsize. lia.
  - repeat split; try done. intros _. apply map_size_empty_iff. lia.
Qed.

(* --------------------------------------------------------------------- *)
(** ** [updateStatus] *)

(** C7. When the status just computed is equal to the status the lister
    holds, [updateStatus] returns the lister's channel without a write to the
    resource store; whenever [updateStatus] does write, the lister held the
    channel with a different status, and what is written is that channel with
    the computed status. *)
Theorem updateStatus_writes_only_on_change (desired : KafkaChannel) (w : World) :
  (∀ kc, lister (Namespace desired) (Name desired) = Found kc →
         Status kc = Status desired →
         updateStatus desired w
         = (Some kc, None, perform (ListerGet (Namespace desired) (Name desired)) w)
         ∧ statusWrites (effects (updateStatus desired w).2)
           = statusWrites (effects w))
  ∧ (statusWrites (effects (updateStatus desired w).2) ≠ statusWrites (effects w) →
     ∃ kc, lister (Namespace desired) (Name desired) = Found kc
           ∧ Status kc ≠ Status desired
           ∧ statusWrites (effects (updateStatus desired w).2)
             = statusWrites (effects w)
               ++ [ {| Namespace := Namespace kc; Name := Name kc;
                       Spec := Spec kc; Status := Status desired |} ]).
Proof.
  unfold updateStatus, statusWrites. split.
  - intros kc -> Heq. rewrite decide_True by done. simpl.
    split; [done|]. by rewrite omap_app, app_nil_r.
  - destruct (lister (Namespace desired) (Name desired)) as [kc|err|err]; simpl.
    + case_decide as Heq; simpl.
      * rewrite omap_app, app_nil_r. done.
      * intros _. exists kc. split; [done|]. split; [done|].
        destruct (UpdateStatus _); simpl; by rewrite !omap_app, app_nil_r.
    + rewrite omap_app, app_nil_r. done.
    + rewrite omap_app, app_nil_r. done.
Qed.

(* --------------------------------------------------------------------- *)
(** ** [Reconcile] *)

(** C10. A key that [SplitMetaNamespaceKey] cannot split makes [Reconcile]
    return no error and leave the world as it is: no lookup by the lister, no
    call of the dispatcher, no status write and no event. *)
Theorem Reconcile_invalid_key (key : string) (w : World) (err : Error) :
  SplitMetaNamespaceKey key = inl err → Reconcile key w = (None, w).
Proof. intros Hkey. unfold Reconcile. by rewrite Hkey. Qed.

(* --------------------------------------------------------------------- *)
(** ** Consumer groups *)

Lemma groupIdOf_eq s1 s2 : groupIdOf s1 = groupIdOf s2 ↔ UID s1 = UID s2.
Proof.
  unfold groupIdOf. simpl. split; [|by intros ->].
  intros Heq. by injection Heq.
Qed.

(** X11. Two subscribers are given the same consumer group exactly when they have
    the same identifier; so the subscriptions handed to the dispatcher for a
    subscriber list without a repeated identifier hold no consumer group
    twice. *)
Theorem distinct_subscribers_distinct_groups (subscribers : list SubscriberSpec) :
  (∀ s1 s2, GroupId (subscriptionOf s1) = GroupId (subscriptionOf s2)
            ↔ UID s1 = UID s2)
  ∧ (NoDup (UID <$> subscribers) →
     NoDup (GroupId <$> (subscriptionOf <$> subscribers))).
Proof.
  split; [intros s1 s2; apply groupIdOf_eq|].
  induction subscribers as [|sub rest IH]; [constructor|].
  rewrite !fmap_cons, !NoDup_cons. intros [Hfresh Hrest].
  split; [|by apply IH].
  rewrite <-list_fmap_compose, list_elem_of_fmap.
  intros (sub' & Hgroup & Hin). apply Hfresh.
  apply groupIdOf_eq in Hgroup. rewrite Hgroup.
  by apply list_elem_of_fmap_2.
Qed.

(* --------------------------------------------------------------------- *)
(** ** The effects of [reconcile] and [updateStatus] *)

(** The dispatcher calls among some effects. *)
Definition dispatcherCalls (es : list Effect) : list (list Subscription) :=
  omap (λ e, match e with
             | DispatcherUpdateSubscriptions s => Some s
             | _ => None
             end) es.

(** The effects of [reconcile]: one call of the dispatcher with the
    subscriptions of the declared subscribers, in their order, unless the
    list is nil. *)
Lemma reconcile_effects channel w :
  effects (reconcile channel w).2
  = effects w
    ++ match Subscribers (Spec channel) with
       | None => []
       | Some subscribers =>
           [DispatcherUpdateSubscriptions (subscriptionOf <$> subscribers)]
       end.
Proof.
  unfold reconcile. destruct (Subscribers (Spec channel)) as [subscribers|].
  - destruct (UpdateSubscriptions _ _) as [failed d]. by case_bool_decide.
  - simpl. by rewrite app_nil_r.
Qed.

(** X12. [reconcile] changes nothing of the channel but the subscribable block of
    its status (namespace, name, spec and the rest of the status are those
    it was given), and it touches no collaborator but the dispatcher: it adds
    no lookup, no status write and no event to the effects, and at most one
    dispatcher call. *)
Theorem reconcile_frame (channel : KafkaChannel) (w : World) :
  let channel' := (reconcile channel w).1.1 in
  let w' := (reconcile channel w).2 in
  Namespace channel' = Namespace channel
  ∧ Name channel' = Name channel
  ∧ Spec channel' = Spec channel
  ∧ StatusRest (Status channel') = StatusRest (Status channel)
  ∧ statusWrites (effects w') = statusWrites (effects w)
  ∧ (∃ calls, dispatcherCalls (effects w') = dispatcherCalls (effects w) ++ calls
              ∧ (length calls ≤ 1)%nat)
  ∧ ∃ new, effects w' = effects w ++ new
           ∧ ∀ e, e ∈ new → ∃ subscriptions, e = DispatcherUpdateSubscriptions subscriptions.
Proof.
  intros channel' w'. subst channel' w'. unfold reconcile.
  destruct (Subscribers (Spec channel)) as [subscribers|].
  - destruct (UpdateSubscriptions _ _) as [failed d].
    case_bool_decide; simpl; do 4 (split; [done|]);
      unfold statusWrites, dispatcherCalls; rewrite !omap_app; simpl;
      rewrite app_nil_r;
      (split; [done|]);
      (split; [eexists; split; [done | simpl; lia]|]);
      eexists; (split; [done|]);
      intros e ->%list_elem_of_singleton; eauto.
  - simpl. do 5 (split; [done|]).
    split; [exists []; rewrite app_nil_r; split; [done | simpl; lia]|].
    exists []. rewrite app_nil_r. split; [done|]. by intros ? ?%elem_of_nil.
Qed.

(** X13. When [reconcile] returns no error, every declared subscriber is reported
    ready, with no message. *)
Theorem reconcile_success_all_ready (channel : KafkaChannel) (w : World)
    (subscribers : list SubscriberSpec) :
  Subscribers (Spec channel) = Some subscribers →
  (reconcile channel w).1.2 = None →
  ∃ statuses,
    StatusSubscribers (SubscribableStatusOf (Status (reconcile channel w).1.1))
    = Some statuses
    ∧ length statuses = length subscribers
    ∧ Forall (λ status, Ready status = ConditionTrue ∧ Message status = ""%string)
             statuses.
Proof.
  intros Hsubs. unfold reconcile. rewrite Hsubs.
  destruct (UpdateSubscriptions _ _) as [failed d].
  case_bool_decide as Hsize; [done|]. intros _. simpl.
  assert (failed = ∅) as -> by (apply map_size_empty_iff; lia).
  unfold createSubscribableStatus. rewrite Hsubs. simpl.
  eexists. split; [done|]. split; [by rewrite length_fmap|].
  apply Forall_fmap, Forall_forall. intros sub _.
  unfold compose, subscriberStatusOf. by rewrite lookup_empty.
Qed.

(** X14. [updateStatus] returns an error exactly when the lister fails, or when
    the status differs and the write to the resource store fails; the error
    is then the one of the lister or of the write. *)
Theorem updateStatus_error_iff (desired : KafkaChannel) (w : World) (e : Error) :
  (updateStatus desired w).1.2 = Some e
  ↔ lister (Namespace desired) (Name desired) = NotFound e
    ∨ lister (Namespace desired) (Name desired) = GetFailed e
    ∨ ∃ kc, lister (Namespace desired) (Name desired) = Found kc
            ∧ Status kc ≠ Status desired
            ∧ UpdateStatus {| Namespace := Namespace kc; Name := Name kc;
                              Spec := Spec kc; Status := Status desired |}
              = inl e.
Proof.
  unfold updateStatus.
  destruct (lister (Namespace desired) (Name desired)) as [kc|err|err]; simpl.
  - case_decide as Heq; simpl.
    + split; [done|]. intros [[=]|[[=]|(kc' & [= <-] & Hne & _)]]. done.
    + destruct (UpdateStatus _) as [err|new] eqn:Hwrite; simpl.
      * split.
        -- intros [= <-]. right. right. by exists kc.
        -- intros [[=]|[[=]|(kc' & [= <-] & _ & Hw)]]. congruence.
      * split; [done|].
        intros [[=]|[[=]|(kc' & [= <-] & _ & Hw)]]. congruence.
  - split.
    + intros [= <-]. by left.
    + by intros [[= <-]|[[=]|(? & [=] & _)]].
  - split.
    + intros [= <-]. right. by left.
    + by intros [[=]|[[= <-]|(? & [=] & _)]].
Qed.


Lemma updateStatus_effects desired w :
  dispatcher (updateStatus desired w).2 = dispatcher w
  ∧ effects (updateStatus desired w).2
    = effects w
      ++ ListerGet (Namespace desired) (Name desired)
         :: match lister (Namespace desired) (Name desired) with
            | Found kc =>
                if decide (Status kc = Status desired) then []
                else [ClientUpdateStatus
                        {| Namespace := Namespace kc; Name := Name kc;
                           Spec := Spec kc; Status := Status desired |}]
            | _ => []
            end.
Proof.
  unfold updateStatus.
  destruct (lister (Namespace desired) (Name desired)) as [kc|err|err]; try done.
  case_decide; [done|]. destruct (UpdateStatus _); simpl;
    by rewrite <-app_assoc.
Qed.

(* --------------------------------------------------------------------- *)
(** ** The paths of [Reconcile] *)

(** X15. The early exits of [Reconcile]. When the lister does not hold the
    channel, or fails, or holds a channel that is not the one of this
    dispatcher, or that is not ready, [Reconcile] does one lookup and nothing
    else: the dispatcher is not called and keeps its state, nothing is
    written and no event is recorded. It returns no error for a channel that
    is not found or is another dispatcher's, the lister's error when the
    lister fails, and an error of its own for a channel that is not ready. *)
Theorem Reconcile_early_exit (key namespace name : string) (w : World) :
  SplitMetaNamespaceKey key = inr (namespace, name) →
  match lister namespace name with
  | Found original =>
      ChannelKey (dispatcher w) ≠ key ∨ IsReady (Status original) = false
  | _ => True
  end →
  (Reconcile key w).2 = perform (ListerGet namespace name) w
  ∧ (Reconcile key w).1
    = match lister namespace name with
      | NotFound _ => None
      | GetFailed err => Some err
      | Found _ =>
          if decide (ChannelKey (dispatcher w) = key)
          then Some "Channel is not ready. Cannot configure and update subscriber status"%string
          else None
      end.
Proof.
  intros Hkey Hexit. unfold Reconcile. rewrite Hkey.
  destruct (lister namespace name) as [original|err|err]; try done. simpl.
  destruct (String.eqb (ChannelKey (dispatcher w)) key) eqn:Heqb; simpl.
  - apply String.eqb_eq in Heqb. rewrite decide_True by done.
    destruct Hexit as [Hne | ->]; done.
  - apply String.eqb_neq in Heqb. by rewrite decide_False.
Qed.


(** The copy of a channel without subscribers is equal to the channel. *)
Lemma DeepCopy_nil channel :
  Subscribers (Spec channel) = None → DeepCopy channel = channel.
Proof.
  intros Hnil. unfold DeepCopy. rewrite Hnil.
  destruct channel as [namespace name [subscribers] status].
  simpl in Hnil. by subst.
Qed.

(** X17. A channel without subscribers. For a ready channel of this dispatcher
    whose subscriber list is nil, and which the lister holds under its own
    namespace and name, [Reconcile] returns no error after two lookups and
    one normal event: the dispatcher is not called and nothing is written. *)
Theorem Reconcile_without_subscribers
    (key namespace name : string) (original : KafkaChannel) (w : World) :
  SplitMetaNamespaceKey key = inr (namespace, name) →
  lister namespace name = Found original →
  lister (Namespace original) (Name original) = Found original →
  ChannelKey (dispatcher w) = key →
  IsReady (Status original) = true →
  Subscribers (Spec original) = None →
  Reconcile key w
  = (None,
     {| dispatcher := dispatcher w;
        effects :=
          effects w
          ++ [ ListerGet namespace name;
               RecorderEvent "Normal" channelReconciled "KafkaChannel Reconciled";
               ListerGet (Namespace original) (Name original) ] |}).
Proof.
  intros Hkey Hfound Hself Hmine Hready Hnil. unfold Reconcile.
  rewrite Hkey, Hfound, (DeepCopy_nil original Hnil). simpl.
  assert (Heqb : String.eqb (ChannelKey (dispatcher w)) key = true)
    by (by apply String.eqb_eq).
  rewrite Heqb, Hready. simpl.
  unfold reconcile. rewrite Hnil. simpl.
  unfold updateStatus. rewrite Hself, decide_True by done. simpl.
  unfold perform. simpl. by rewrite <-!app_assoc.
Qed.

Lemma dispatcherCalls_app es es' :
  dispatcherCalls (es ++ es') = dispatcherCalls es ++ dispatcherCalls es'.
Proof. apply omap_app. Qed.

Lemma statusWrites_app es es' :
  statusWrites (es ++ es') = statusWrites es ++ statusWrites es'.
Proof. apply omap_app. Qed.

(** X18. Whatever the key and the collaborators, one [Reconcile] calls the
    dispatcher at most once and writes a status at most once. *)
Theorem Reconcile_at_most_once (key : string) (w : World) :
  ∃ calls writes,
    dispatcherCalls (effects (Reconcile key w).2)
    = dispatcherCalls (effects w) ++ calls
    ∧ statusWrites (effects (Reconcile key w).2)
      = statusWrites (effects w) ++ writes
    ∧ (length calls ≤ 1)%nat ∧ (length writes ≤ 1)%nat.
Proof.
  assert (Hnone : ∀ e : Effect,
            match e with
            | DispatcherUpdateSubscriptions _ | ClientUpdateStatus _ => False
            | _ => True
            end →
            ∀ w0 : World,
              dispatcherCalls (effects (perform e w0)) = dispatcherCalls (effects w0)
              ∧ statusWrites (effects (perform e w0)) = statusWrites (effects w0)).
  { intros e He w0. unfold dispatcherCalls, statusWrites, perform. simpl.
    rewrite !omap_app. destruct e; simpl; try done; by rewrite !app_nil_r. }
  assert (Hzero : ∃ calls writes,
            dispatcherCalls (effects w) = dispatcherCalls (effects w) ++ calls
            ∧ statusWrites (effects w) = statusWrites (effects w) ++ writes
            ∧ (length calls ≤ 1)%nat ∧ (length writes ≤ 1)%nat).
  { exists [], []. rewrite !app_nil_r. simpl. repeat split; lia. }
  unfold Reconcile.
  destruct (SplitMetaNamespaceKey key) as [err|[namespace name]]; [done|].
  set (w1 := perform (ListerGet namespace name) w).
  destruct (Hnone (ListerGet namespace name) I w) as [Hc1 Hw1]. fold w1 in Hc1, Hw1.
  assert (Hone : ∃ calls writes,
            dispatcherCalls (effects w1) = dispatcherCalls (effects w) ++ calls
            ∧ statusWrites (effects w1) = statusWrites (effects w) ++ writes
            ∧ (length calls ≤ 1)%nat ∧ (length writes ≤ 1)%nat).
  { rewrite Hc1, Hw1. exact Hzero. }
  destruct (lister namespace name) as [original|err|err]; try done.
  destruct (negb (String.eqb (ChannelKey (dispatcher w1)) key)); [done|].
  destruct (negb (IsReady (Status original))); [done|].
  generalize (DeepCopy original). intros copy.
  pose proof (reconcile_effects copy w1) as Heff2.
  set (new2 := match Subscribers (Spec copy) with
               | Some subscribers =>
                   [DispatcherUpdateSubscriptions (subscriptionOf <$> subscribers)]
               | None => []
               end) in Heff2.
  assert (Hnew2 : statusWrites new2 = []
                  ∧ (length (dispatcherCalls new2) ≤ 1)%nat).
  { unfold new2. destruct (Subscribers (Spec copy)); simpl; split; done || lia. }
  destruct Hnew2 as [Hwnew2 Hlen]. set (calls := dispatcherCalls new2) in *.
  destruct (reconcile copy w1) as [[channel reconcileError] w2].
  cbn [fst snd] in Heff2.
  assert (Hc2 : dispatcherCalls (effects w2) = dispatcherCalls (effects w1) ++ calls)
    by (by rewrite Heff2, dispatcherCalls_app).
  assert (Hw2 : statusWrites (effects w2) = statusWrites (effects w1))
    by (by rewrite Heff2, statusWrites_app, Hwnew2, app_nil_r).
  set (w3 := match reconcileError with
             | Some err => perform _ w2
             | None => perform _ w2
             end).
  assert (Hw3 : dispatcherCalls (effects w3) = dispatcherCalls (effects w2)
                ∧ statusWrites (effects w3) = statusWrites (effects w2)).
  { unfold w3. destruct reconcileError; by apply Hnone. }
  destruct Hw3 as [Hc3 Hw3].
  destruct (updateStatus_effects channel w3) as [_ Heff].
  set (new := match lister (Namespace channel) (Name channel) with
              | Found kc =>
                  if decide (Status kc = Status channel) then []
                  else [ClientUpdateStatus
                          {| Namespace := Namespace kc; Name := Name kc;
                             Spec := Spec kc; Status := Status channel |}]
              | _ => []
              end) in Heff.
  assert (Hnew : dispatcherCalls new = [] ∧ (length (statusWrites new) ≤ 1)%nat).
  { unfold new. destruct (lister _ _); simpl; [|split; [done | lia] ..].
    case_decide; simpl; split; try done; lia. }
  destruct Hnew as [Hcnew Hwnew].
  exists calls, (statusWrites new).
  destruct (updateStatus channel w3) as [[kc updateStatusErr] w4].
  simpl in Heff.
  assert (Hc4 : dispatcherCalls (effects w4) = dispatcherCalls (effects w) ++ calls).
  { rewrite Heff, dispatcherCalls_app.
    change (dispatcherCalls (ListerGet (Namespace channel) (Name channel) :: new))
      with (dispatcherCalls new).
    by rewrite Hcnew, app_nil_r, Hc3, Hc2, Hc1. }
  assert (Hw4 : statusWrites (effects w4)
                = statusWrites (effects w) ++ statusWrites new).
  { rewrite Heff, statusWrites_app.
    change (statusWrites (ListerGet (Namespace channel) (Name channel) :: new))
      with (statusWrites new).
    by rewrite Hw3, Hw2, Hw1. }
  destruct updateStatusErr as [err|]; cbn [fst snd].
  - destruct (Hnone (RecorderEvent "Warning" channelUpdateStatusFailed
                       (String.append "Failed to update KafkaChannel's status: " err)) I w4)
      as [-> ->].
    done.
  - done.
Qed.

End Reconciler.

(* --------------------------------------------------------------------- *)
(** ** Worked examples *)

(** In the examples an address of a URL is named by a string, here the text
    of the URL it refers to, two names being two addresses; the rest of a
    status is the channel's ready condition, and the dispatcher has no
    state. *)
Definition exampleWorld : @World string bool unit :=
  {| dispatcher := tt; effects := [] |}.

(** Two subscribers with the same identifier and different URIs, and a
    third one. *)
Definition subscriberA : @SubscriberSpec string :=
  {| UID := "u1"; Generation := 1; SubscriberURI := "http://a" |}.
Definition subscriberB : @SubscriberSpec string :=
  {| UID := "u1"; Generation := 2; SubscriberURI := "http://b" |}.
Definition subscriberC : @SubscriberSpec string :=
  {| UID := "u2"; Generation := 7; SubscriberURI := "http://c" |}.

(** C3 does not hold as stated: the Subscriptions of [subscriberA] and
    [subscriberB] have the same consumer-group identifier and are different
    map keys, and the failure stored under the first is not found under the
    second. *)
Lemma same_uid_other_uri_distinct_keys :
  UID subscriberA = UID subscriberB
  ∧ SubscriberURI subscriberA ≠ SubscriberURI subscriberB
  ∧ GroupId (subscriptionOf subscriberA) = GroupId (subscriptionOf subscriberB)
  ∧ subscriptionOf subscriberA ≠ subscriptionOf subscriberB
  ∧ ({[ subscriptionOf subscriberA := "consumer failed"%string ]}
       : gmap (@Subscription string) string) !! subscriptionOf subscriberB = None.
Proof.
  split; [done|]. split; [done|]. split; [done|].
  assert (Hne : subscriptionOf subscriberA ≠ subscriptionOf subscriberB)
    by (intros Heq; apply (f_equal URI) in Heq; discriminate).
  split; [done|]. by apply lookup_singleton_ne.
Qed.

(** Addresses as numbers: the URLs at the addresses 1 and 3 are the same
    URL, the one at 2 is another. *)
Definition exampleUrlOf (u : nat) : string :=
  match u with
  | 1%nat | 3%nat => "http://a"
  | 2%nat => "http://b"
  | _ => ""
  end.

Definition addressedSubscriber (u : nat) : @SubscriberSpec nat :=
  {| UID := "u1"; Generation := 1; SubscriberURI := u |}.

Lemma same_uid_subscriptions_example :
  UID (addressedSubscriber 1) = UID (addressedSubscriber 2)
  ∧ exampleUrlOf (SubscriberURI (addressedSubscriber 1))
    ≠ exampleUrlOf (SubscriberURI (addressedSubscriber 2))
  ∧ GroupId (subscriptionOf (addressedSubscriber 1)) = "kafka.u1"%string
  ∧ GroupId (subscriptionOf (addressedSubscriber 1))
    = GroupId (subscriptionOf (addressedSubscriber 2))
  ∧ subscriptionOf (addressedSubscriber 1) ≠ subscriptionOf (addressedSubscriber 2)
  ∧ Ready (subscriberStatusOf
             {[ subscriptionOf (addressedSubscriber 1) := "consumer failed"%string ]}
             (addressedSubscriber 2))
    = ConditionTrue.
Proof.
  assert (Huid : UID (addressedSubscriber 1) = UID (addressedSubscriber 2))
    by reflexivity.
  assert (Hurl : exampleUrlOf (SubscriberURI (addressedSubscriber 1))
                 ≠ exampleUrlOf (SubscriberURI (addressedSubscriber 2)))
    by discriminate.
  destruct (same_uid_subscriptions exampleUrlOf (addressedSubscriber 1)
              (addressedSubscriber 2) Huid) as (Hformat & Hgroup & Hkeys & _).
  destruct (Hkeys Hurl) as [Hne Hlookup].
  destruct (Hlookup ∅ "consumer failed"%string) as (_ & _ & Hready).
  split; [exact Huid|]. split; [exact Hurl|]. split; [exact Hformat|].
  split; [exact Hgroup|]. split; [exact Hne | exact Hready].
Defined.

(** The key holds the address, not the URL: the same URL at two addresses
    gives two keys, and the failure stored under one is not found under the
    other. *)
Example same_url_two_addresses_distinct_keys :
  exampleUrlOf 1 = exampleUrlOf 3
  ∧ subscriptionOf (addressedSubscriber 1) ≠ subscriptionOf (addressedSubscriber 3)
  ∧ ({[ subscriptionOf (addressedSubscriber 1) := "consumer failed"%string ]}
       : gmap (@Subscription nat) string) !! subscriptionOf (addressedSubscriber 3)
    = None.
Proof.
  assert (Hne : subscriptionOf (addressedSubscriber 1)
                ≠ subscriptionOf (addressedSubscriber 3))
    by (intros Heq; apply (f_equal URI) in Heq; discriminate).
  split; [done|]. split; [done|]. by apply lookup_singleton_ne.
Qed.

(** The status of two subscribers, the second of which failed. *)
Example createSubscribableStatus_example :
  createSubscribableStatus
    {| Subscribers := Some [subscriberA; subscriberC] |}
    {[ subscriptionOf subscriberC := "no broker"%string ]}
  = {| StatusSubscribers :=
         Some [ {| StatusUID := "u1"; ObservedGeneration := 1;
                   Ready := ConditionTrue; Message := "" |};
                {| StatusUID := "u2"; ObservedGeneration := 7;
                   Ready := ConditionFalse; Message := "no broker" |} ] |}.
Proof. by vm_compute. Qed.

(** A channel named default/channel with the given subscribers and status. *)
Definition exampleChannel (subscribers : option (list (@SubscriberSpec string)))
    (ready : bool) (statuses : option (list SubscriberStatus))
  : @KafkaChannel string bool :=
  {| Namespace := "default"; Name := "channel";
     Spec := {| Subscribers := subscribers |};
     Status := {| StatusRest := ready;
                  SubscribableStatusOf := {| StatusSubscribers := statuses |} |} |}.

(** A dispatcher that converges without failure, and one that fails to stop
    a consumer that is no longer wanted. *)
Definition convergingDispatcher (d : unit) (subscriptions : list (@Subscription string))
  : gmap (@Subscription string) string * unit := (∅, d).

Definition failingDispatcher (d : unit) (subscriptions : list (@Subscription string))
  : gmap (@Subscription string) string * unit :=
  ({[ subscriptionOf subscriberA := "failed to stop consumer"%string ]}, d).

(** C6 does not hold as stated: for a subscriber list that is empty but not
    nil the dispatcher is called, and when it reports a failure the reconcile
    returns an error. *)
Lemma reconcile_empty_list_calls_dispatcher :
  Subscribers (Spec (exampleChannel (Some []) true None)) = Some []
  ∧ effects (reconcile failingDispatcher
               (exampleChannel (Some []) true None) exampleWorld).2
    = [DispatcherUpdateSubscriptions []]
  ∧ (reconcile failingDispatcher
       (exampleChannel (Some []) true None) exampleWorld).1.2
    = Some "Some kafka subscriptions failed to subscribe"%string.
Proof. split; [done|]. split; by vm_compute. Qed.

Lemma reconcile_no_subscribers_example :
  reconcile failingDispatcher (exampleChannel None true None) exampleWorld
  = (exampleChannel None true None, None, exampleWorld)
  ∧ effects (reconcile convergingDispatcher
               (exampleChannel (Some []) true None) exampleWorld).2
    = [DispatcherUpdateSubscriptions []]
  ∧ (reconcile convergingDispatcher
       (exampleChannel (Some []) true None) exampleWorld).1.2 = None.
Proof.
  destruct (reconcile_no_subscribers failingDispatcher
              (exampleChannel None true None) exampleWorld) as [Hnil _].
  destruct (reconcile_no_subscribers convergingDispatcher
              (exampleChannel (Some []) true None) exampleWorld) as [_ Hempty].
  destruct (Hempty eq_refl) as (Hcall & _ & Hok).
  split; [exact (Hnil eq_refl)|]. split; [exact Hcall|].
  apply Hok. reflexivity.
Defined.

(** A lister that holds default/channel, with one ready subscriber, and a
    clientset that accepts every write. *)
Definition storedChannel : @KafkaChannel string bool :=
  exampleChannel (Some [subscriberA]) true
    (Some [ {| StatusUID := "u1"; ObservedGeneration := 1;
               Ready := ConditionTrue; Message := "" |} ]).

Definition exampleLister (namespace name : string) : @GetResult string bool :=
  if String.eqb namespace "default" && String.eqb name "channel"
  then Found storedChannel else NotFound "kafkachannel not found".

Definition acceptingClient (kc : @KafkaChannel string bool)
  : string + @KafkaChannel string bool := inr kc.

Lemma updateStatus_example :
  updateStatus exampleLister acceptingClient storedChannel exampleWorld
  = (Some storedChannel, None,
     perform (ListerGet "default" "channel") exampleWorld)
  ∧ statusWrites
      (effects (updateStatus exampleLister acceptingClient
                  storedChannel exampleWorld).2) = [].
Proof.
  destruct (updateStatus_writes_only_on_change exampleLister acceptingClient
              storedChannel exampleWorld) as [Hsame _].
  exact (Hsame storedChannel eq_refl eq_refl).
Defined.

(** A write does happen when the computed status differs. *)
Example updateStatus_changed_example :
  statusWrites
    (effects (updateStatus exampleLister acceptingClient
                (exampleChannel (Some [subscriberA]) true (Some []))
                exampleWorld).2)
  = [exampleChannel (Some [subscriberA]) true (Some [])].
Proof. by vm_compute. Qed.

(** The address of the copy of the URL at the address named [u]. *)
Definition copyName (u : string) : string := String.append "copy of " u.


(** The keys of client-go, for the examples: name, or namespace/name; a key
    with more than one slash is refused. *)
Fixpoint splitSlash (key : string) : list string :=
  match key with
  | EmptyString => [EmptyString]
  | String c rest =>
      if Ascii.eqb c "/"%char then EmptyString :: splitSlash rest
      else match splitSlash rest with
           | part :: parts => String c part :: parts
           | [] => [String c EmptyString]
           end
  end.

Definition exampleSplitKey (key : string) : string + string * string :=
  match splitSlash key with
  | [name] => inr (EmptyString, name)
  | [namespace; name] => inr (namespace, name)
  | _ => inl (String.append "unexpected key format: " key)
  end.

Lemma Reconcile_invalid_key_example :
  exampleSplitKey "default/channel/extra"
  = inl "unexpected key format: default/channel/extra"%string
  ∧ Reconcile exampleSplitKey exampleLister (λ status, StatusRest status)
      (λ _, "default/channel"%string) failingDispatcher acceptingClient copyName
      "default/channel/extra" exampleWorld
    = (None, exampleWorld).
Proof.
  assert (Hkey : exampleSplitKey "default/channel/extra"
                 = inl "unexpected key format: default/channel/extra"%string)
    by reflexivity.
  split; [exact Hkey|].
  exact (Reconcile_invalid_key exampleSplitKey exampleLister
           (λ status, StatusRest status) (λ _, "default/channel"%string)
           failingDispatcher acceptingClient copyName _ exampleWorld _ Hkey).
Defined.

(** The scenario of the specification: one subscriber, topic ready. The
    dispatcher is asked for the consumer group kafka.u1, the subscriber is
    reported ready, and nothing is written since the lister holds that status
    already. *)
Example Reconcile_example :
  Reconcile exampleSplitKey exampleLister (λ status, StatusRest status)
    (λ _, "default/channel"%string) convergingDispatcher acceptingClient copyName
    "default/channel" exampleWorld
  = (None,
     {| dispatcher := tt;
        effects :=
          [ ListerGet "default" "channel";
            DispatcherUpdateSubscriptions
              [ {| URI := "copy of http://a"; GroupId := "kafka.u1" |} ];
            RecorderEvent "Normal" "ChannelReconciled" "KafkaChannel Reconciled";
            ListerGet "default" "channel" ] |}).
Proof. by vm_compute. Qed.


Lemma reconcile_success_all_ready_example :
  (reconcile convergingDispatcher
     (exampleChannel (Some [subscriberA; subscriberC]) true None) exampleWorld).1.2
  = None
  ∧ ∃ statuses,
      StatusSubscribers
        (SubscribableStatusOf
           (Status (reconcile convergingDispatcher
                      (exampleChannel (Some [subscriberA; subscriberC]) true None)
                      exampleWorld).1.1))
      = Some statuses
      ∧ length statuses = 2%nat
      ∧ Forall (λ status, Ready status = ConditionTrue ∧ Message status = ""%string)
               statuses.
Proof.
  assert (Hok : (reconcile convergingDispatcher
                   (exampleChannel (Some [subscriberA; subscriberC]) true None)
                   exampleWorld).1.2 = None) by reflexivity.
  split; [exact Hok|].
  exact (reconcile_success_all_ready convergingDispatcher
           (exampleChannel (Some [subscriberA; subscriberC]) true None)
           exampleWorld [subscriberA; subscriberC] eq_refl Hok).
Defined.

(** The error of [reconcile] and the statuses can disagree the other way: a
    failure that the dispatcher reports for a subscription that is not
    declared makes [reconcile] fail while every declared subscriber is
    reported ready. *)
Example reconcile_fails_all_ready :
  reconcile failingDispatcher
    (exampleChannel (Some [subscriberC]) true None) exampleWorld
  = (exampleChannel (Some [subscriberC]) true
       (Some [ {| StatusUID := "u2"; ObservedGeneration := 7;
                  Ready := ConditionTrue; Message := "" |} ]),
     Some "Some kafka subscriptions failed to subscribe"%string,
     {| dispatcher := tt;
        effects := [DispatcherUpdateSubscriptions
                      [ {| URI := "http://c"; GroupId := "kafka.u2" |} ]] |}).
Proof. by vm_compute. Qed.

Lemma Reconcile_early_exit_example :
  exampleSplitKey "default/other" = inr ("default", "other")%string
  ∧ (Reconcile exampleSplitKey exampleLister (λ status, StatusRest status)
       (λ _, "default/channel"%string) failingDispatcher acceptingClient copyName
       "default/other" exampleWorld).2
    = perform (ListerGet "default" "other") exampleWorld
  ∧ (Reconcile exampleSplitKey exampleLister (λ status, StatusRest status)
       (λ _, "default/channel"%string) failingDispatcher acceptingClient copyName
       "default/other" exampleWorld).1
    = None.
Proof.
  assert (Hkey : exampleSplitKey "default/other" = inr ("default", "other")%string)
    by reflexivity.
  split; [exact Hkey|].
  exact (Reconcile_early_exit exampleSplitKey exampleLister
           (λ status, StatusRest status) (λ _, "default/channel"%string)
           failingDispatcher acceptingClient copyName
           "default/other" "default" "other" exampleWorld Hkey I).
Defined.


(** A failure that the dispatcher still holds under the key it was handed by
    an earlier reconcile is not found under the key of the new copy: the
    subscriber is reported ready, which is the status the lister holds, so
    nothing is written, [reconcile] fails and [Reconcile] returns no error. *)
Example Reconcile_stale_failure_not_found :
  Reconcile exampleSplitKey exampleLister (λ status, StatusRest status)
    (λ _, "default/channel"%string) failingDispatcher acceptingClient copyName
    "default/channel" exampleWorld
  = (None,
     {| dispatcher := tt;
        effects :=
          [ ListerGet "default" "channel";
            DispatcherUpdateSubscriptions
              [ {| URI := "copy of http://a"; GroupId := "kafka.u1" |} ];
            RecorderEvent "Warning" "ChannelReconcileFailed"
              "KafkaChannel Reconciliation Failed: Some kafka subscriptions failed to subscribe";
            ListerGet "default" "channel" ] |}).
Proof. by vm_compute. Qed.

(** A lister that holds default/channel without subscribers. *)
Definition idleLister (namespace name : string) : @GetResult string bool :=
  if String.eqb namespace "default" && String.eqb name "channel"
  then Found (exampleChannel None true None)
  else NotFound "kafkachannel not found".

Lemma Reconcile_without_subscribers_example :
  Reconcile exampleSplitKey idleLister (λ status, StatusRest status)
    (λ _, "default/channel"%string) failingDispatcher acceptingClient copyName
    "default/channel" exampleWorld
  = (None,
     {| dispatcher := tt;
        effects :=
          [ ListerGet "default" "channel";
            RecorderEvent "Normal" "ChannelReconciled" "KafkaChannel Reconciled";
            ListerGet "default" "channel" ] |}).
Proof.
  exact (Reconcile_without_subscribers exampleSplitKey idleLister
           (λ status, StatusRest status) (λ _, "default/channel"%string)
           failingDispatcher acceptingClient copyName
           "default/channel" "default" "channel" (exampleChannel None true None)
           exampleWorld eq_refl eq_refl eq_refl eq_refl eq_refl eq_refl).
Defined.

End Controller.
